(** * A shallow embedding of the shunting-yard calculator ([src/main.rs])

    The Rust program scans an expression once, converting it to postfix
    order with a holding stack (shunting-yard), and then evaluates the
    postfix queue with an operand stack.  This file models [Operator],
    [Operator::by_char] (with the slice binary search it calls), [Token],
    [EvalError] and [eval].

    Modelling choices:
    - a Rust [char] is its Unicode scalar value, an [N]; [str] turns an
      ASCII string literal into the list of chars [.chars()] yields;
    - [usize] is [N];
    - [f64] is Rocq's primitive binary64 [float], whose [+ - * /] and
      negation are the IEEE-754 operations Rust uses;
    - [VecDeque] used as a stack (push_front / pop_front / front) is a list
      whose head is the front; [push_back] appends at the end;
    - a Rust panic (an [unwrap] on [None]) is the [Panic] outcome.  *)

From Stdlib Require Import List NArith ZArith Floats Ascii String Bool Lia.
Import ListNotations.

Open Scope N_scope.

(** ** Characters *)

Definition char := N.

(** The chars of an ASCII string literal. *)
Definition str (s : string) : list char :=
  map N_of_ascii (list_ascii_of_string s).

Definition chr (a : ascii) : char := N_of_ascii a.

(** [char::is_digit(10)]: only the ASCII digits. *)
Definition is_digit10 (c : char) : bool := (48 <=? c) && (c <=? 57).

(** [char::is_whitespace]: the Unicode [White_Space] property. *)
Definition is_whitespace (c : char) : bool :=
  ((9 <=? c) && (c <=? 13)) || (c =? 32) || (c =? 133) || (c =? 160)
  || (c =? 5760) || ((8192 <=? c) && (c <=? 8202))
  || (c =? 8232) || (c =? 8233) || (c =? 8239) || (c =? 8287)
  || (c =? 12288).

(** ** [<[T]>::binary_search_by]

    The standard library's implementation (Rust 1.82 and later): the loop
    halves [size] without an early exit and the element at [base] is
    compared at the end.  [fuel] bounds the iterations; it starts at the
    length of the slice, and each iteration decreases [size] by at least
    one, so it never runs out. *)
Module Slice.

Inductive result := Ok (i : N) | Err (i : N).

Section BinarySearch.
Context {A : Type}.
Variable f : A -> comparison.

Fixpoint bs_loop (fuel : nat) (s : list A) (base size : N) : N :=
  match fuel with
  | O => base
  | S fuel' =>
      if 1 <? size then
        let half := size / 2 in
        let mid := base + half in
        let base' :=
          match nth_error s (N.to_nat mid) with
          | Some x => match f x with Gt => base | _ => mid end
          | None => base
          end in
        bs_loop fuel' s base' (size - half)
      else base
  end.

Definition binary_search_by (s : list A) : result :=
  let size := N.of_nat (List.length s) in
  if size =? 0 then Err 0
  else
    let base := bs_loop (List.length s) s 0 size in
    match nth_error s (N.to_nat base) with
    | Some x =>
        match f x with
        | Eq => Ok base
        | Lt => Err (base + 1)
        | Gt => Err base
        end
    | None => Err base
    end.

(** The implementation of Rust 1.52 to 1.81, with an early exit on
    [Equal]; kept to show that [by_char] does not depend on the version. *)
Fixpoint bs_loop_1_52 (fuel : nat) (s : list A) (left right : N) : result :=
  match fuel with
  | O => Err left
  | S fuel' =>
      if left <? right then
        let size := right - left in
        let mid := left + size / 2 in
        match nth_error s (N.to_nat mid) with
        | Some x =>
            match f x with
            | Eq => Ok mid
            | Lt => bs_loop_1_52 fuel' s (mid + 1) right
            | Gt => bs_loop_1_52 fuel' s left mid
            end
        | None => Err left
        end
      else Err left
  end.

Definition binary_search_by_1_52 (s : list A) : result :=
  bs_loop_1_52 (S (List.length s)) s 0 (N.of_nat (List.length s)).

End BinarySearch.
End Slice.

(** ** [Operator] *)
Module Operator.

Record t := mk {
  symbol : char;
  argc : N;
  precedence : N;
  (** [resolver: fn(&Vec<f64>) -> f64]; [None] is the panic of an
      [unwrap] on a missing argument. *)
  resolver : list float -> option float
}.

(** The closures of [Operator::MAP]: [args.get(1).unwrap() OP args.get(0).unwrap()]. *)
Definition binary (f : float -> float -> float) (args : list float) : option float :=
  match nth_error args 1, nth_error args 0 with
  | Some a1, Some a0 => Some (f a1 a0)
  | _, _ => None
  end.

(** The four entries of [Operator::MAP], in the order of the source. *)
Definition Divide := mk (chr "/"%char) 2 4 (binary PrimFloat.div).
Definition Multiply := mk (chr "*"%char) 2 3 (binary PrimFloat.mul).
Definition Add := mk (chr "+"%char) 2 2 (binary PrimFloat.add).
Definition Subtract := mk (chr "-"%char) 2 1 (binary PrimFloat.sub).

Definition MAP : list (char * t) :=
  [ (chr "/"%char, Divide);
    (chr "*"%char, Multiply);
    (chr "+"%char, Add);
    (chr "-"%char, Subtract) ].

(** [Self::MAP.binary_search_by(|(k, _)| k.cmp(&c)).map(|x| Self::MAP[x].1)] *)
Definition by_char (c : char) : option t :=
  match Slice.binary_search_by (fun kv : char * t => N.compare (fst kv) c) MAP with
  | Slice.Ok i => option_map snd (nth_error MAP (N.to_nat i))
  | Slice.Err _ => None
  end.

Definition by_char_1_52 (c : char) : option t :=
  match Slice.binary_search_by_1_52 (fun kv : char * t => N.compare (fst kv) c) MAP with
  | Slice.Ok i => option_map snd (nth_error MAP (N.to_nat i))
  | Slice.Err _ => None
  end.

Definition resolve (op : t) (args : list float) : option float :=
  resolver op args.

End Operator.

(** ** [Token] and [EvalError] *)
Module Token.

Inductive t :=
| NumericLiteral (v : float)
| Operator (op : Operator.t)
| OpenParen.

End Token.

Inductive EvalError :=
| InvalidCharacter
| UnexpectedToken (tok : Token.t)
| DuplicateDecimal
| NumberParseError
| MismatchedParenthesis
| NotEnoughArguments
| NoResult.

(** The outcome of [eval]: [Result<A, EvalError>], or a panic. *)
Inductive Result (A : Type) :=
| Ok (a : A)
| Err (e : EvalError)
| Panic.

Arguments Ok {A} a.
Arguments Err {A} e.
Arguments Panic {A}.

Definition bind {A B : Type} (m : Result A) (k : A -> Result B) : Result B :=
  match m with
  | Ok a => k a
  | Err e => Err e
  | Panic => Panic
  end.

Notation "x <- m ;; k" := (bind m (fun x => k))
  (at level 61, m at next level, right associativity).

(** ** [str::parse::<f64>] on the strings [temp] can hold

    [temp] only ever holds ASCII digits and at most one ['.'] (the scanner
    appends nothing else).  On such strings Rust's grammar
    [Digit+ | Digit+ '.' Digit* | Digit* '.' Digit+] rejects exactly the
    lone ["."]; the value of [ds.fs] is the decimal [ds fs / 10^|fs|]
    rounded to nearest-even binary64, as Rust's parser does.  Any other
    character makes the model fail to parse (Rust's signs, exponents,
    ["inf"] and ["nan"] never reach [temp]). *)

Fixpoint digits_value (ds : list char) (acc : N) : option N :=
  match ds with
  | [] => Some acc
  | d :: ds' => if is_digit10 d then digits_value ds' (acc * 10 + (d - 48)) else None
  end.

(** Split at the first ['.']: the integer digits and, if there is a dot,
    the digits after it. *)
Fixpoint split_dot (s : list char) : list char * option (list char) :=
  match s with
  | [] => ([], None)
  | c :: s' =>
      if c =? chr "."%char then ([], Some s')
      else let '(ip, fp) := split_dot s' in (c :: ip, fp)
  end.

(** [m / 10^k] correctly rounded to binary64 (nearest, ties to even). *)
Definition decimal_to_f64 (m : N) (k : nat) : float :=
  match m with
  | N0 => PrimFloat.zero
  | Npos p =>
      let '(q, e, l) :=
        SFdiv_core_binary prec emax (Zpos p) 0 (Z.pow 10 (Z.of_nat k)) 0 in
      SF2Prim (binary_round_aux prec emax false q e l)
  end.

Definition parse_f64 (s : list char) : option float :=
  match split_dot s with
  | (ip, None) =>
      match ip with
      | [] => None
      | _ => option_map (fun m => decimal_to_f64 m 0) (digits_value ip 0)
      end
  | (ip, Some fp) =>
      match ip, fp with
      | [], [] => None
      | _, _ => option_map (fun m => decimal_to_f64 m (List.length fp))
                  (digits_value (ip ++ fp) 0)
      end
  end.

(** ** [eval]: the scan (tokenizer fused with the shunting-yard conversion) *)

Record state := mkState {
  holding : list Token.t;      (** front = top of the holding stack *)
  output : list Token.t;       (** the output queue, front first *)
  temp : list char;            (** the pending numeral *)
  last_token : option Token.t
}.

Definition init : state := mkState [] [] [] None.

(** Lines 86-94: flush a non-empty [temp] as a numeric literal. *)
Definition flush (st : state) : Result state :=
  match temp st with
  | [] => Ok st
  | tmp =>
      match parse_f64 tmp with
      | None => Err NumberParseError
      | Some v =>
          Ok (mkState (holding st) (output st ++ [Token.NumericLiteral v]) []
                (Some (Token.NumericLiteral v)))
      end
  end.

(** Lines 99-104: pop into the output until an [OpenParen] is on top. *)
Fixpoint pop_until_paren (h o : list Token.t) : list Token.t * list Token.t :=
  match h with
  | [] => ([], o)
  | Token.OpenParen :: _ => (h, o)
  | t :: h' => pop_until_paren h' (o ++ [t])
  end.

(** Lines 123-134: pop operators of precedence [>=] that of [op].  The
    holding stack only ever holds operators and open parentheses (lines 96
    and 135), so the [NumericLiteral] case, on which the Rust loop would
    spin, never arises. *)
Fixpoint pop_ops (op : Operator.t) (h o : list Token.t) : list Token.t * list Token.t :=
  match h with
  | [] => ([], o)
  | Token.OpenParen :: _ => (h, o)
  | Token.Operator p :: h' =>
      if Operator.precedence op <=? Operator.precedence p
      then pop_ops op h' (o ++ [Token.Operator p])
      else (h, o)
  | Token.NumericLiteral _ :: _ => (h, o)
  end.

(** Lines 114-122: a [+] or [-] after an operator or at the very start
    becomes unary: [argc = 1], [precedence = 255]. *)
Definition unary_adjust (last : option Token.t) (op : Operator.t) : Operator.t :=
  if (Operator.symbol op =? chr "+"%char) || (Operator.symbol op =? chr "-"%char) then
    match last with
    | Some (Token.Operator _) | None =>
        Operator.mk (Operator.symbol op) 1 255 (Operator.resolver op)
    | _ => op
    end
  else op.

(** One iteration of the loop of lines 77-142. *)
Definition step (st : state) (c : char) : Result state :=
  if is_digit10 c then
    Ok (mkState (holding st) (output st) (temp st ++ [c]) (last_token st))
  else if c =? chr "."%char then
    if existsb (N.eqb (chr "."%char)) (temp st) then Err DuplicateDecimal
    else Ok (mkState (holding st) (output st) (temp st ++ [c]) (last_token st))
  else
    st1 <- flush st ;;
    if c =? chr "("%char then
      Ok (mkState (Token.OpenParen :: holding st1) (output st1) (temp st1)
            (Some Token.OpenParen))
    else if c =? chr ")"%char then
      let '(h, o) := pop_until_paren (holding st1) (output st1) in
      match h with
      | [] => Err MismatchedParenthesis
      | t :: h' =>
          let h'' := match t with Token.OpenParen => h' | _ => t :: h' end in
          Ok (mkState h'' o (temp st1) (Some t))
      end
    else if negb (is_whitespace c) then
      match Operator.by_char c with
      | Some op0 =>
          let op := unary_adjust (last_token st1) op0 in
          let '(h, o) := pop_ops op (holding st1) (output st1) in
          Ok (mkState (Token.Operator op :: h) o (temp st1)
                (Some (Token.Operator op)))
      | None => Err InvalidCharacter
      end
    else Ok st1.

Fixpoint scan (st : state) (s : list char) : Result state :=
  match s with
  | [] => Ok st
  | c :: s' => st' <- step st c ;; scan st' s'
  end.

(** Lines 144-157: flush [temp], then drain the holding stack into the
    output queue in pop order. *)
Definition finish (st : state) : Result (list Token.t) :=
  match temp st with
  | [] => Ok (output st ++ holding st)
  | tmp =>
      match parse_f64 tmp with
      | None => Err NumberParseError
      | Some v => Ok (output st ++ [Token.NumericLiteral v] ++ holding st)
      end
  end.

(** ** [eval]: the postfix evaluation (lines 174-212) *)

(** Lines 191-194: pop [n] operands into [args], most recent first. *)
Fixpoint pop_args (n : nat) (solve args : list float) : Result (list float * list float) :=
  match n with
  | O => Ok (args, solve)
  | S n' =>
      match solve with
      | [] => Panic
      | v :: solve' => pop_args n' solve' (args ++ [v])
      end
  end.

Fixpoint solve_loop (out : list Token.t) (solve : list float) : Result (list float) :=
  match out with
  | [] => Ok solve
  | Token.NumericLiteral num :: out' => solve_loop out' (num :: solve)
  | Token.Operator op :: out' =>
      if N.of_nat (List.length solve) <? Operator.argc op then Err NotEnoughArguments
      else if (Operator.symbol op =? chr "+"%char) && (Operator.argc op =? 1) then
        solve_loop out' solve
      else if (Operator.symbol op =? chr "-"%char) && (Operator.argc op =? 1) then
        match solve with
        | [] => Panic
        | value :: solve' => solve_loop out' ((- value)%float :: solve')
        end
      else
        p <- pop_args (N.to_nat (Operator.argc op)) solve [] ;;
        let '(args, solve') := p in
        if N.of_nat (List.length args) <? Operator.argc op then Err NotEnoughArguments
        else
          match Operator.resolve op args with
          | None => Panic
          | Some r => solve_loop out' (r :: solve')
          end
  | Token.OpenParen :: _ => Err (UnexpectedToken Token.OpenParen)
  end.

(** [fn eval(expression: &str) -> Result<f64, EvalError>].  The [print!]
    of the output queue (lines 159-172) only writes to stdout. *)
Definition eval (expression : list char) : Result float :=
  st <- scan init expression ;;
  out <- finish st ;;
  solve <- solve_loop out [] ;;
  match solve with
  | v :: _ => Ok v
  | [] => Err NoResult
  end.

(** ** [fn main]: the read-eval-print loop

    Each iteration reads one line with [stdin.read_line] into a fresh
    [String]: the line's chars including its final ['\n'], if any, or
    nothing at the end of the input (an [Ok] that reads zero bytes).  A read
    error ([Err], e.g. on invalid UTF-8) is [None].  What the loop prints is
    kept as data: [PrintOk] carries [expr.trim_end()] and the value,
    [PrintErr] the error; a panic of [eval] aborts the program. *)

Inductive action :=
| Stop
| PrintOk (shown : list char) (v : float)
| PrintErr (e : EvalError)
| PrintInputError
| Abort.

(** [str::trim_end]: drop the trailing chars with the [White_Space]
    property. *)
Fixpoint drop_ws (s : list char) : list char :=
  match s with
  | c :: s' => if is_whitespace c then drop_ws s' else s
  | [] => []
  end.

Definition trim_end (s : list char) : list char := rev (drop_ws (rev s)).

(** Lines 223-226. *)
Definition report (shown : list char) (r : Result float) : action :=
  match r with
  | Ok v => PrintOk shown v
  | Err e => PrintErr e
  | Panic => Abort
  end.

(** One iteration of the loop (lines 217-229). *)
Definition main_step (line : option (list char)) : action :=
  match line with
  | None => PrintInputError
  | Some expr =>
      if list_eq_dec N.eq_dec expr (str "end") then Stop
      else report (trim_end expr) (eval expr)
  end.

(** [fuel] iterations of the loop on the successive results of
    [read_line]; once they are used up the input is at its end, where
    [read_line] reads nothing. *)
Fixpoint main_run (fuel : nat) (reads : list (option (list char))) : list action :=
  match fuel with
  | O => []
  | S fuel' =>
      let '(r, reads') := match reads with
                          | [] => (Some [], [])
                          | r :: rs => (r, rs)
                          end in
      match main_step r with
      | Stop => [Stop]
      | Abort => [Abort]
      | a => a :: main_run fuel' reads'
      end
  end.


(** ** Infix expressions over the operators the table finds

    A reference semantics to compare [eval] with: expression trees over
    numerals, parentheses, binary [*], [+], [-] and prefix [+], [-],
    printed with any whitespace between and around the lexemes.  The
    precedences are those of [Operator::MAP] ([*] 3, [+] 2, [-] 1), every
    level left-associative; a prefix sign applies to a numeral or a
    parenthesised group and stands at the start of the expression or right
    after a binary operator. *)
Module Infix.

Inductive binop := Mul | Plus | Minus.

Definition binop_char (o : binop) : char :=
  match o with
  | Mul => chr "*"%char
  | Plus => chr "+"%char
  | Minus => chr "-"%char
  end.

Definition binop_prec (o : binop) : N :=
  match o with Mul => 3 | Plus => 2 | Minus => 1 end.

Definition binop_fun (o : binop) : float -> float -> float :=
  match o with
  | Mul => PrimFloat.mul
  | Plus => PrimFloat.add
  | Minus => PrimFloat.sub
  end.

Inductive expr :=
| Lit (ds : list char)
| Bin (o : binop) (a b : expr)
| UMinus (a : expr)
| UPlus (a : expr)
| Par (a : expr).

(** Binding strength of the outermost construct. *)
Definition level (e : expr) : N :=
  match e with
  | Lit _ | Par _ => 256
  | UMinus _ | UPlus _ => 255
  | Bin o _ _ => binop_prec o
  end.

Definition is_primary (e : expr) : bool :=
  match e with Lit _ | Par _ => true | _ => false end.

Fixpoint starts_unary (e : expr) : bool :=
  match e with
  | UMinus _ | UPlus _ => true
  | Bin _ a _ => starts_unary a
  | _ => false
  end.

(** Digits with at most one ['.'] ([seen]: a dot was already read). *)
Fixpoint digits_dots (seen : bool) (ds : list char) : bool :=
  match ds with
  | [] => true
  | d :: ds' =>
      if is_digit10 d then digits_dots seen ds'
      else if d =? chr "."%char then negb seen && digits_dots true ds'
      else false
  end.

(** A numeral: digits with at most one dot, not empty and not a lone dot. *)
Definition numeral (ds : list char) : bool :=
  digits_dots false ds &&
  match ds with [] => false | [d] => is_digit10 d | _ => true end.

Fixpoint wf (e : expr) : Prop :=
  match e with
  | Lit ds => numeral ds = true
  | Bin o a b => wf a /\ wf b /\ binop_prec o <= level a /\ binop_prec o < level b
  | UMinus a | UPlus a => is_primary a = true /\ wf a
  | Par a => wf a /\ starts_unary a = false
  end.

Fixpoint den (e : expr) : float :=
  match e with
  | Lit ds => match parse_f64 ds with Some v => v | None => nan end
  | Bin o a b => binop_fun o (den a) (den b)
  | UMinus a => (- den a)%float
  | UPlus a => den a
  | Par a => den a
  end.

Inductive lexeme := LNum (ds : list char) | LSym (c : char).

Fixpoint tokens (e : expr) : list lexeme :=
  match e with
  | Lit ds => [LNum ds]
  | Bin o a b => tokens a ++ LSym (binop_char o) :: tokens b
  | UMinus a => LSym (chr "-"%char) :: tokens a
  | UPlus a => LSym (chr "+"%char) :: tokens a
  | Par a => LSym (chr "("%char) :: tokens a ++ [LSym (chr ")"%char)]
  end.

Definition lchars (l : lexeme) : list char :=
  match l with LNum ds => ds | LSym c => [c] end.

(** A printing of the lexemes: each one is followed by the whitespace of
    its gap, [ws] listing the gaps in order (a missing gap is empty). *)
Fixpoint render (ws : list (list char)) (ls : list lexeme) : list char :=
  match ls with
  | [] => []
  | l :: ls' => lchars l ++ hd [] ws ++ render (tl ws) ls'
  end.

(** The scan, one lexeme at a time: a numeral is read into [temp] and
    flushed; a symbol is one [step]. *)
Definition lstep (st : state) (l : lexeme) : Result state :=
  match l with
  | LNum ds => flush (mkState (holding st) (output st) ds (last_token st))
  | LSym c => step st c
  end.

Fixpoint lscan (st : state) (ls : list lexeme) : Result state :=
  match ls with
  | [] => Ok st
  | l :: ls' => st' <- lstep st l ;; lscan st' ls'
  end.

End Infix.
(** ** Auxiliary definitions for the proofs *)

(** What [Operator::by_char] returns on each char. *)
Definition by_char_expected (c : char) : option Operator.t :=
  if c =? chr "*"%char then Some Operator.Multiply
  else if c =? chr "+"%char then Some Operator.Add
  else if c =? chr "-"%char then Some Operator.Subtract
  else None.

(** A char that ends a numeral: neither a digit nor a dot. *)
Definition sym_ok (c : char) : bool :=
  negb (is_digit10 c) && negb (c =? chr "."%char).

(** The lexemes of a rendering are well formed: numerals, symbols that
    end a numeral, and no two numerals next to each other. *)
Definition lex_item_ok (l : Infix.lexeme) : bool :=
  match l with
  | Infix.LNum ds => Infix.numeral ds
  | Infix.LSym c => sym_ok c
  end.

Definition adj_ok (l : Infix.lexeme) (rest : list Infix.lexeme) : Prop :=
  match l, rest with
  | Infix.LNum _, Infix.LNum _ :: _ => False
  | _, _ => True
  end.

Fixpoint lex_ok (ls : list Infix.lexeme) : Prop :=
  match ls with
  | [] => True
  | l :: ls' => lex_item_ok l = true /\ adj_ok l ls' /\ lex_ok ls'
  end.

(** The top of the holding stack does not pop under an operator of
    precedence [p] or more. *)
Definition blocks (h : list Token.t) (p : N) : Prop :=
  match h with
  | [] | Token.OpenParen :: _ => True
  | Token.Operator q :: _ => Operator.precedence q < p
  | Token.NumericLiteral _ :: _ => False
  end.

(** A [last_token] after which [+] and [-] are unary. *)
Definition unary_ctx (last : option Token.t) : Prop :=
  match last with
  | None | Some (Token.Operator _) => True
  | _ => False
  end.

(** A [last_token] after which [+] and [-] are binary. *)
Definition after_operand (last : option Token.t) : Prop :=
  match last with
  | Some (Token.NumericLiteral _) | Some Token.OpenParen => True
  | _ => False
  end.

(** Operators left on the holding stack, all of precedence [p] or more. *)
Definition pending_ok (p : N) (P : list Token.t) : Prop :=
  Forall (fun t => match t with
                   | Token.Operator q => p <= Operator.precedence q
                   | _ => False
                   end) P.

(** The table entry [Operator::by_char] finds for a binary operator. *)
Definition binop_op (o : Infix.binop) : Operator.t :=
  match o with
  | Infix.Mul => Operator.Multiply
  | Infix.Plus => Operator.Add
  | Infix.Minus => Operator.Subtract
  end.

(** The operator a prefix sign becomes once [unary_adjust] has run. *)
Definition unary_op (op : Operator.t) : Operator.t :=
  Operator.mk (Operator.symbol op) 1 255 (Operator.resolver op).

(** ** Invariants of the scan *)

(** The operators the scan can push: the three [by_char] finds, and the
    unary [+] and [-] of [unary_adjust]. *)
Definition op_ok (op : Operator.t) : Prop :=
  op = Operator.Multiply \/ op = Operator.Add \/ op = Operator.Subtract \/
  op = unary_op Operator.Add \/ op = unary_op Operator.Subtract.

Definition hold_tok_ok (t : Token.t) : Prop :=
  match t with
  | Token.NumericLiteral _ => False
  | Token.Operator op => op_ok op
  | Token.OpenParen => True
  end.

Definition out_tok_ok (t : Token.t) : Prop :=
  match t with
  | Token.NumericLiteral _ => True
  | Token.Operator op => op_ok op
  | Token.OpenParen => False
  end.

Definition solve_tok_ok (t : Token.t) : Prop :=
  match t with
  | Token.Operator op => op_ok op
  | _ => True
  end.

(** Each operator on the holding stack has a higher precedence than the
    operator right below it. *)
Fixpoint prec_chain (h : list Token.t) : Prop :=
  match h with
  | [] => True
  | t :: h' =>
      match t, h' with
      | Token.Operator p, Token.Operator q :: _ => Operator.precedence q < Operator.precedence p
      | _, _ => True
      end /\ prec_chain h'
  end.

Definition scan_inv (st : state) : Prop :=
  Forall hold_tok_ok (holding st) /\ Forall out_tok_ok (output st) /\
  prec_chain (holding st) /\ Infix.digits_dots false (temp st) = true.

Definition digit_or_dot (c : char) : bool := is_digit10 c || (c =? chr "."%char).

(** The last char of [x], if any, is neither a digit nor a dot. *)
Definition no_dd_last (x : list char) : Prop :=
  match rev x with [] => True | c :: _ => digit_or_dot c = false end.

(** The first char of [y], if any, is neither a digit nor a dot. *)
Definition no_dd_first (y : list char) : Prop :=
  match y with [] => True | c :: _ => digit_or_dot c = false end.

(** [temp st] is the run of digits and dots that ends [pre]. *)
Definition tail_ok (pre : list char) (st : state) : Prop :=
  exists x, pre = x ++ temp st /\ no_dd_last x.

Definition has_num (st : state) : Prop :=
  temp st <> [] \/ exists v, In (Token.NumericLiteral v) (output st).

Definition count_open (h : list Token.t) : nat :=
  List.length (filter (fun t => match t with Token.OpenParen => true | _ => false end) h).

Definition count_char (c : char) (s : list char) : nat := count_occ N.eq_dec s c.

(** * Properties *)

(** ** Sample runs *)

Example ex1 : eval (str "3 + 4 * 2") = Ok 11%float. Proof. vm_compute. reflexivity. Qed.
Example ex2 : eval (str "(3 + 4) * 2") = Ok 14%float. Proof. vm_compute. reflexivity. Qed.
Example ex3 : eval (str "-3 + 4") = Ok 1%float. Proof. vm_compute. reflexivity. Qed.
Example ex4 : eval (str "2 - -3") = Ok 5%float. Proof. vm_compute. reflexivity. Qed.
Example ex5 : eval (str "1 / 0") = Err InvalidCharacter. Proof. vm_compute. reflexivity. Qed.
Example ex6 : eval (str "(-3)") = Err NotEnoughArguments. Proof. vm_compute. reflexivity. Qed.
Example ex7 : eval (str "3 . 5 . 2") = Err NumberParseError. Proof. vm_compute. reflexivity. Qed.
Example ex8 : eval (str "3.5.2") = Err DuplicateDecimal. Proof. vm_compute. reflexivity. Qed.
Example ex9 : eval (str "1 - 2 + 3") = Ok (-4)%float. Proof. vm_compute. reflexivity. Qed.
Example ex10 : eval (str ")") = Err MismatchedParenthesis. Proof. vm_compute. reflexivity. Qed.
Example ex11 : eval (str "+") = Err NotEnoughArguments. Proof. vm_compute. reflexivity. Qed.
Example ex12 : eval (str "3 4") = Ok 4%float. Proof. vm_compute. reflexivity. Qed.
Example ex13 : eval (str "(1 + 2") = Err (UnexpectedToken Token.OpenParen). Proof. vm_compute. reflexivity. Qed.
Example ex14 : eval (str "--3") = Err NotEnoughArguments. Proof. vm_compute. reflexivity. Qed.
Example ex15 : eval (str "2 - - -3") = Ok 1%float. Proof. vm_compute. reflexivity. Qed.


(** ** Binding *)

Lemma bind_assoc {A B C : Type} (m : Result A) (k : A -> Result B) (k' : B -> Result C) :
  bind (bind m k) k' = bind m (fun a => bind (k a) k').
Proof. destruct m; reflexivity. Qed.

Lemma bind_ok_r {A : Type} (m : Result A) : bind m (@Ok A) = m.
Proof. destruct m; reflexivity. Qed.

Lemma bind_ext {A B : Type} (m : Result A) (k k' : A -> Result B) :
  (forall a, m = Ok a -> k a = k' a) -> bind m k = bind m k'.
Proof. destruct m; simpl; auto. Qed.

(** ** The operator table *)

Lemma MAP_not_sorted :
  ~ (forall i j ki kj oi oj, (i < j)%nat ->
       nth_error Operator.MAP i = Some (ki, oi) ->
       nth_error Operator.MAP j = Some (kj, oj) -> ki < kj).
Proof.
  intros H. specialize (H 0%nat 1%nat _ _ _ _ ltac:(lia) eq_refl eq_refl).
  vm_compute in H. discriminate H.
Qed.


Ltac decide_eqb :=
  repeat match goal with
         | |- context [N.eqb ?a ?b] =>
             let E := fresh "E" in
             destruct (N.eqb_spec a b) as [E|E];
             try (unfold chr in E; cbn -[N.lt] in E; lia)
         end.

Section SearchExt.
Context {A : Type}.

Lemma bs_loop_ext (f g : A -> comparison) (s : list A) :
  (forall x, In x s -> f x = g x) ->
  forall fuel base size, Slice.bs_loop f fuel s base size = Slice.bs_loop g fuel s base size.
Proof.
  intros Hfg fuel. induction fuel as [|fuel IH]; intros base size; simpl; [reflexivity|].
  destruct (1 <? size); [|reflexivity].
  destruct (nth_error s (N.to_nat (base + size / 2))) eqn:E.
  - rewrite (Hfg a) by (eapply nth_error_In; eauto). apply IH.
  - apply IH.
Qed.

Lemma binary_search_by_ext (f g : A -> comparison) (s : list A) :
  (forall x, In x s -> f x = g x) ->
  Slice.binary_search_by f s = Slice.binary_search_by g s.
Proof.
  intros Hfg. unfold Slice.binary_search_by.
  rewrite (bs_loop_ext f g s Hfg).
  destruct (N.of_nat (List.length s) =? 0); [reflexivity|].
  destruct (nth_error s _) eqn:E; [|reflexivity].
  rewrite (Hfg a) by (eapply nth_error_In; eauto). reflexivity.
Qed.

Lemma bs_loop_1_52_ext (f g : A -> comparison) (s : list A) :
  (forall x, In x s -> f x = g x) ->
  forall fuel l r, Slice.bs_loop_1_52 f fuel s l r = Slice.bs_loop_1_52 g fuel s l r.
Proof.
  intros Hfg fuel. induction fuel as [|fuel IH]; intros l r; simpl; [reflexivity|].
  destruct (l <? r); [|reflexivity].
  destruct (nth_error s _) eqn:E; [|reflexivity].
  rewrite (Hfg a) by (eapply nth_error_In; eauto).
  destruct (g a); auto.
Qed.

End SearchExt.

Lemma by_char_table (c : char) :
  Operator.by_char c = by_char_expected c /\ Operator.by_char_1_52 c = by_char_expected c.
Proof.
  assert (c < 42 \/ c = 42 \/ c = 43 \/ c = 44 \/ c = 45 \/ c = 46 \/ c = 47 \/ 47 < c)
    as Hc by lia.
  destruct Hc as [Hc|[->|[->|[->|[->|[->|[->|Hc]]]]]]];
    try (split; vm_compute; reflexivity).
  - unfold Operator.by_char, Operator.by_char_1_52, Slice.binary_search_by_1_52.
    rewrite (binary_search_by_ext _ (fun _ => Gt)), (bs_loop_1_52_ext _ (fun _ => Gt)).
    2, 3: intros [k o] Hin; simpl in Hin; simpl;
      repeat destruct Hin as [Hin|Hin]; try contradiction; injection Hin as <- <-;
      apply N.compare_gt_iff; unfold chr; cbn -[N.lt]; lia.
    unfold by_char_expected; decide_eqb; split; reflexivity.
  - unfold Operator.by_char, Operator.by_char_1_52, Slice.binary_search_by_1_52.
    rewrite (binary_search_by_ext _ (fun _ => Lt)), (bs_loop_1_52_ext _ (fun _ => Lt)).
    2, 3: intros [k o] Hin; simpl in Hin; simpl;
      repeat destruct Hin as [Hin|Hin]; try contradiction; injection Hin as <- <-;
      apply N.compare_lt_iff; unfold chr; cbn -[N.lt]; lia.
    unfold by_char_expected; decide_eqb; split; reflexivity.
Qed.

(** ** The scan, char by char *)

Lemma scan_app (st : state) (l1 l2 : list char) :
  scan st (l1 ++ l2) = bind (scan st l1) (fun st' => scan st' l2).
Proof.
  revert st. induction l1 as [|c l1 IH]; intros st; simpl; [reflexivity|].
  rewrite bind_assoc. apply bind_ext. intros st' _. apply IH.
Qed.


Lemma flush_temp (st st' : state) : flush st = Ok st' -> temp st' = [].
Proof.
  unfold flush. destruct (temp st) eqn:E; [intros H; injection H as <-; exact E|].
  destruct (parse_f64 _); intros H; [injection H as <-; reflexivity | discriminate].
Qed.

Lemma flush_nil (st : state) : temp st = [] -> flush st = Ok st.
Proof. unfold flush. intros ->. reflexivity. Qed.

Lemma sym_ok_facts (c : char) :
  sym_ok c = true -> is_digit10 c = false /\ (c =? chr "."%char) = false.
Proof.
  unfold sym_ok. intros H. apply andb_prop in H as [H1 H2].
  apply negb_true_iff in H1, H2. auto.
Qed.

Lemma step_flush (st : state) (c : char) :
  sym_ok c = true -> step st c = bind (flush st) (fun st1 => step st1 c).
Proof.
  intros Hc. apply sym_ok_facts in Hc as [Hd Hdot].
  unfold step at 1. rewrite Hd, Hdot. apply bind_ext. intros st1 Hf.
  unfold step. rewrite Hd, Hdot, (flush_nil st1 (flush_temp _ _ Hf)). reflexivity.
Qed.

Lemma step_sym_temp (st st' : state) (c : char) :
  sym_ok c = true -> step st c = Ok st' -> temp st' = [].
Proof.
  intros Hc. apply sym_ok_facts in Hc as [Hd Hdot].
  unfold step. rewrite Hd, Hdot.
  destruct (flush st) as [st1| |] eqn:Hf; cbn [bind]; try discriminate.
  pose proof (flush_temp _ _ Hf) as Ht.
  destruct (c =? chr "("%char); [intros H; injection H as <-; exact Ht|].
  destruct (c =? chr ")"%char).
  - destruct (pop_until_paren _ _) as [[|t h] o]; [discriminate|].
    intros H; injection H as <-; exact Ht.
  - destruct (negb (is_whitespace c)); [|intros H; injection H as <-; exact Ht].
    destruct (Operator.by_char c); [|discriminate].
    destruct (pop_ops _ _ _). intros H; injection H as <-; exact Ht.
Qed.

Lemma whitespace_facts (c : char) :
  is_whitespace c = true ->
  is_digit10 c = false /\ (c =? chr "."%char) = false /\
  (c =? chr "("%char) = false /\ (c =? chr ")"%char) = false.
Proof.
  unfold is_whitespace, is_digit10, chr; cbn -[N.leb N.eqb].
  intros H. repeat rewrite Bool.orb_true_iff, ?Bool.andb_true_iff, ?N.leb_le, ?N.eqb_eq in H.
  repeat split; [apply Bool.andb_false_iff; rewrite !N.leb_gt; lia | ..];
    apply N.eqb_neq; lia.
Qed.

Lemma step_ws (st : state) (c : char) :
  is_whitespace c = true -> temp st = [] -> step st c = Ok st.
Proof.
  intros Hw Ht. pose proof (whitespace_facts c Hw) as (Hd & Hdot & Ho & Hcl).
  unfold step. rewrite Hd, Hdot, (flush_nil st Ht); cbn [bind]. rewrite Ho, Hcl, Hw. reflexivity.
Qed.

Lemma scan_ws (st : state) (sp r : list char) :
  forallb is_whitespace sp = true -> temp st = [] -> scan st (sp ++ r) = scan st r.
Proof.
  induction sp as [|c sp IH]; simpl; [reflexivity|].
  intros H Ht. apply andb_prop in H as [Hc Hsp].
  rewrite (step_ws st c Hc Ht). simpl. apply IH; assumption.
Qed.

Lemma scan_digits (ds : list char) (st : state) :
  Infix.digits_dots (existsb (N.eqb (chr "."%char)) (temp st)) ds = true ->
  scan st ds = Ok (mkState (holding st) (output st) (temp st ++ ds) (last_token st)).
Proof.
  revert st. induction ds as [|d ds IH]; intros st H; cbn [scan].
  - rewrite app_nil_r. destruct st; reflexivity.
  - cbn [Infix.digits_dots] in H. unfold step.
    destruct (is_digit10 d) eqn:Hd.
    + cbn [bind]. rewrite IH; cbn [holding output temp last_token].
      * rewrite <- app_assoc. reflexivity.
      * rewrite existsb_app. cbn [existsb temp].
        assert (Hnd : (chr "."%char =? d) = false).
        { apply N.eqb_neq. intros <-. vm_compute in Hd. discriminate Hd. }
        rewrite Hnd, orb_false_r. exact H.
    + destruct (d =? chr "."%char) eqn:Hdot; [|discriminate].
      apply andb_prop in H as [Hseen H]. apply negb_true_iff in Hseen.
      rewrite Hseen. cbn [negb bind]. rewrite IH; cbn [holding output temp last_token].
      * rewrite <- app_assoc. reflexivity.
      * rewrite existsb_app. cbn [existsb temp]. rewrite N.eqb_sym, Hdot. rewrite orb_true_r. exact H.
Qed.

Lemma finish_flush (st : state) : finish st = bind (flush st) finish.
Proof.
  unfold flush. destruct (temp st) as [|d ds] eqn:E; cbn [bind]; [reflexivity|].
  unfold finish at 1. rewrite E.
  destruct (parse_f64 _); cbn [bind]; [|reflexivity].
  unfold finish; cbn [temp output holding]. rewrite <- app_assoc. reflexivity.
Qed.

(** ** Numerals *)

Lemma digits_value_some (l : list char) (acc : N) :
  Forall (fun d => is_digit10 d = true) l -> exists n, digits_value l acc = Some n.
Proof.
  revert acc. induction l as [|d l IH]; intros acc H; simpl; [eauto|].
  inversion H as [|? ? Hd Hl]; subst. rewrite Hd. apply IH, Hl.
Qed.

Lemma digits_dots_true (l : list char) :
  Infix.digits_dots true l = true -> Forall (fun d => is_digit10 d = true) l.
Proof.
  induction l as [|d l IH]; cbn [Infix.digits_dots]; intros H; [constructor|].
  destruct (is_digit10 d) eqn:Hd; [constructor; auto|].
  destruct (d =? _); discriminate.
Qed.

Lemma digits_dots_split (seen : bool) (ds : list char) :
  Infix.digits_dots seen ds = true ->
  (split_dot ds = (ds, None) /\ Forall (fun d => is_digit10 d = true) ds) \/
  (exists ip fp, split_dot ds = (ip, Some fp) /\ ds = ip ++ chr "."%char :: fp /\
     Forall (fun d => is_digit10 d = true) ip /\ Forall (fun d => is_digit10 d = true) fp).
Proof.
  induction ds as [|d ds IH]; cbn [Infix.digits_dots split_dot]; intros H; [left; auto|].
  destruct (is_digit10 d) eqn:Hd.
  - assert (Hnd : (d =? chr "."%char) = false).
    { apply N.eqb_neq. intros ->. vm_compute in Hd. discriminate Hd. }
    rewrite Hnd. destruct (IH H) as [[-> Hall]|(ip & fp & -> & -> & Hip & Hfp)].
    + left; auto.
    + right. exists (d :: ip), fp. auto.
  - destruct (d =? chr "."%char) eqn:Hdot; [|discriminate].
    apply N.eqb_eq in Hdot as ->. apply andb_prop in H as [_ H].
    right. exists [], ds. repeat split; auto. apply digits_dots_true, H.
Qed.

Lemma numeral_parse (ds : list char) :
  Infix.numeral ds = true -> exists v, parse_f64 ds = Some v.
Proof.
  unfold Infix.numeral. intros H. apply andb_prop in H as [H1 H2].
  unfold parse_f64.
  destruct (digits_dots_split _ _ H1) as [[-> Hall]|(ip & fp & -> & -> & Hip & Hfp)].
  - destruct ds as [|d ds]; [discriminate|].
    destruct (digits_value_some (d :: ds) 0 Hall) as [n ->]. eexists; reflexivity.
  - destruct ip as [|i ip]; [destruct fp as [|f fp]|].
    + vm_compute in H2. discriminate H2.
    + destruct (digits_value_some ([] ++ f :: fp) 0) as [n ->]; [exact Hfp|].
      eexists; reflexivity.
    + destruct (digits_value_some ((i :: ip) ++ fp) 0) as [n ->];
        [apply Forall_app; auto|].
      destruct fp; eexists; reflexivity.
Qed.

(** ** From chars to lexemes *)

Lemma lscan_app (st : state) (l1 l2 : list Infix.lexeme) :
  Infix.lscan st (l1 ++ l2) = bind (Infix.lscan st l1) (fun st' => Infix.lscan st' l2).
Proof.
  revert st. induction l1 as [|l l1 IH]; intros st; simpl; [reflexivity|].
  rewrite bind_assoc. apply bind_ext. intros st' _. apply IH.
Qed.

Lemma scan_after_num (st : state) (ds R : list char) :
  temp st = [] -> Infix.numeral ds = true ->
  (R = [] \/ exists c R', R = c :: R' /\ sym_ok c = true) ->
  bind (scan st (ds ++ R)) finish =
  bind (flush (mkState (holding st) (output st) ds (last_token st)))
       (fun st1 => bind (scan st1 R) finish).
Proof.
  intros Ht Hn HR.
  assert (Hd : Infix.digits_dots (existsb (N.eqb (chr "."%char)) (temp st)) ds = true).
  { rewrite Ht. unfold Infix.numeral in Hn. apply andb_prop in Hn as [Hn _]. exact Hn. }
  rewrite scan_app, (scan_digits ds st Hd), Ht. cbn [bind app].
  destruct HR as [->|(c & R' & -> & Hc)].
  - cbn [scan bind]. rewrite finish_flush. apply bind_ext. intros st1 _. reflexivity.
  - cbn [scan]. rewrite (step_flush _ c Hc), !bind_assoc.
    apply bind_ext. intros st1 _. rewrite bind_assoc. reflexivity.
Qed.

Lemma scan_render (ws : list (list char)) (ls : list Infix.lexeme) (st : state) :
  Forall (fun w => forallb is_whitespace w = true) ws -> temp st = [] -> lex_ok ls ->
  bind (scan st (Infix.render ws ls)) finish = bind (Infix.lscan st ls) finish.
Proof.
  revert ws st. induction ls as [|l ls IH]; intros ws st Hws Ht Hok; [reflexivity|].
  destruct Hok as (Hl & Hadj & Hok).
  assert (Hw : forallb is_whitespace (hd [] ws) = true)
    by (destruct Hws as [|w ws' Hw _]; [reflexivity|exact Hw]).
  assert (Hws' : Forall (fun w => forallb is_whitespace w = true) (tl ws))
    by (destruct Hws as [|w ws' _ Hws']; [constructor|exact Hws']).
  cbn [Infix.render Infix.lscan]. rewrite bind_assoc.
  destruct l as [ds|c]; cbn [Infix.lchars Infix.lstep lex_item_ok] in *.
  - rewrite (scan_after_num st ds); [| exact Ht | exact Hl |].
    + apply bind_ext. intros st1 Hf. pose proof (flush_temp _ _ Hf) as Ht1.
      rewrite (scan_ws st1 _ _ Hw Ht1). apply IH; assumption.
    + destruct (hd [] ws) as [|w w'] eqn:Ehd; cbn [app].
      * destruct ls as [|l2 ls]; [left; reflexivity|right].
        destruct l2 as [ds2|c2]; [destruct Hadj|].
        destruct Hok as (Hl2 & _). cbn [Infix.render Infix.lchars app].
        exists c2, (hd [] (tl ws) ++ Infix.render (tl (tl ws)) ls).
        split; [reflexivity | exact Hl2].
      * right. exists w, (w' ++ Infix.render (tl ws) ls). split; [reflexivity|].
        cbn [forallb] in Hw. apply andb_prop in Hw as [Hw _].
        pose proof (whitespace_facts w Hw) as (Hd & Hdot & _).
        unfold sym_ok. rewrite Hd, Hdot. reflexivity.
  - cbn [app scan]. rewrite bind_assoc. apply bind_ext. intros st1 Hs.
    pose proof (step_sym_temp _ _ _ Hl Hs) as Ht1.
    rewrite (scan_ws st1 _ _ Hw Ht1). apply IH; assumption.
Qed.

(** ** The postfix evaluation *)

Lemma solve_loop_app (l1 l2 : list Token.t) (s : list float) :
  solve_loop (l1 ++ l2) s = bind (solve_loop l1 s) (solve_loop l2).
Proof.
  revert s. induction l1 as [|t l1 IH]; intros s; [reflexivity|].
  destruct t as [num|op|]; cbn [app solve_loop]; [apply IH| |reflexivity].
  destruct (_ <? _); [reflexivity|].
  destruct (_ && _); [apply IH|].
  destruct (_ && _); [destruct s; [reflexivity|apply IH]|].
  rewrite bind_assoc. apply bind_ext. intros [args s'] _.
  destruct (_ <? _); [reflexivity|].
  destruct (Operator.resolve _ _); [apply IH|reflexivity].
Qed.

Lemma solve_binop (o : Infix.binop) (x y : float) (s : list float) :
  solve_loop [Token.Operator (binop_op o)] (y :: x :: s) = Ok (Infix.binop_fun o x y :: s).
Proof.
  cbn [solve_loop].
  replace (N.of_nat (List.length (y :: x :: s)) <? Operator.argc (binop_op o)) with false
    by (symmetry; apply N.ltb_ge; destruct o; cbn [List.length]; simpl; lia).
  destruct o; reflexivity.
Qed.

Lemma solve_unary (op : Operator.t) (x : float) (s : list float) :
  op = Operator.Add \/ op = Operator.Subtract ->
  solve_loop [Token.Operator (unary_op op)] (x :: s) =
  Ok ((if Operator.symbol op =? chr "-"%char then (- x)%float else x) :: s).
Proof.
  intros Hop. cbn [solve_loop].
  replace (N.of_nat (List.length (x :: s)) <? Operator.argc (unary_op op)) with false
    by (symmetry; apply N.ltb_ge; cbn [List.length]; simpl; lia).
  destruct Hop as [->| ->]; reflexivity.
Qed.

(** ** The shunting-yard steps *)

Lemma blocks_mono (h : list Token.t) (p p' : N) : blocks h p -> p <= p' -> blocks h p'.
Proof. destruct h as [|[| |] h]; simpl; auto; lia. Qed.

Lemma pending_ok_mono (p p' : N) (P : list Token.t) :
  pending_ok p P -> p' <= p -> pending_ok p' P.
Proof.
  intros H Hp. unfold pending_ok in *. eapply Forall_impl; [|exact H].
  intros [| |]; simpl; auto; lia.
Qed.

Lemma pop_ops_pending (op : Operator.t) (p : N) (P h o : list Token.t) :
  pending_ok p P -> Operator.precedence op <= p ->
  pop_ops op (P ++ h) o = pop_ops op h (o ++ P).
Proof.
  revert o. induction P as [|t P IH]; intros o HP Hp; simpl; [rewrite app_nil_r; reflexivity|].
  inversion HP as [|? ? Ht HP']; subst.
  destruct t as [|q|]; try contradiction.
  replace (Operator.precedence op <=? Operator.precedence q) with true
    by (symmetry; apply N.leb_le; lia).
  rewrite IH by assumption. rewrite <- app_assoc. reflexivity.
Qed.

Lemma pop_ops_blocked (op : Operator.t) (h o : list Token.t) :
  blocks h (Operator.precedence op) -> pop_ops op h o = (h, o).
Proof.
  destruct h as [|[|q|] h]; simpl; try contradiction; auto.
  intros Hq. replace (Operator.precedence op <=? Operator.precedence q) with false
    by (symmetry; apply N.leb_gt; lia).
  reflexivity.
Qed.

Lemma pop_until_paren_pending (p : N) (P h o : list Token.t) :
  pending_ok p P -> pop_until_paren (P ++ h) o = pop_until_paren h (o ++ P).
Proof.
  revert o. induction P as [|t P IH]; intros o HP; simpl; [rewrite app_nil_r; reflexivity|].
  inversion HP as [|? ? Ht HP']; subst.
  destruct t as [|q|]; try contradiction.
  rewrite IH by assumption. rewrite <- app_assoc. reflexivity.
Qed.

Lemma unary_adjust_operand (last : option Token.t) (op : Operator.t) :
  after_operand last -> unary_adjust last op = op.
Proof.
  destruct last as [[| |]|]; simpl; try contradiction; intros _;
    unfold unary_adjust; destruct (_ || _); reflexivity.
Qed.

Lemma by_char_binop (o : Infix.binop) :
  Operator.by_char (Infix.binop_char o) = Some (binop_op o).
Proof. destruct o; vm_compute; reflexivity. Qed.

Lemma binop_char_facts (o : Infix.binop) :
  is_digit10 (Infix.binop_char o) = false /\ (Infix.binop_char o =? chr "."%char) = false /\
  (Infix.binop_char o =? chr "("%char) = false /\ (Infix.binop_char o =? chr ")"%char) = false /\
  is_whitespace (Infix.binop_char o) = false.
Proof. destruct o; vm_compute; repeat split. Qed.

Lemma step_binop (o : Infix.binop) (p : N) (P h o' : list Token.t) (last : option Token.t) :
  after_operand last -> pending_ok p P -> Infix.binop_prec o <= p ->
  blocks h (Infix.binop_prec o) ->
  step (mkState (P ++ h) o' [] last) (Infix.binop_char o) =
  Ok (mkState (Token.Operator (binop_op o) :: h) (o' ++ P) []
        (Some (Token.Operator (binop_op o)))).
Proof.
  intros Hl HP Hp Hb.
  destruct (binop_char_facts o) as (Hd & Hdot & Ho & Hc & Hw).
  assert (Hprec : Operator.precedence (binop_op o) = Infix.binop_prec o) by (destruct o; reflexivity).
  unfold step. rewrite Hd, Hdot, flush_nil by reflexivity. cbn [bind].
  rewrite Ho, Hc, Hw. cbn [negb holding output temp last_token].
  rewrite by_char_binop, (unary_adjust_operand _ _ Hl).
  rewrite (pop_ops_pending _ p) by (auto; lia).
  rewrite pop_ops_blocked by (rewrite Hprec; exact Hb).
  reflexivity.
Qed.

Lemma step_unary (c : char) (op : Operator.t) (h o : list Token.t) (last : option Token.t) :
  (c = chr "+"%char /\ op = Operator.Add) \/ (c = chr "-"%char /\ op = Operator.Subtract) ->
  unary_ctx last -> blocks h 255 ->
  step (mkState h o [] last) c =
  Ok (mkState (Token.Operator (unary_op op) :: h) o [] (Some (Token.Operator (unary_op op)))).
Proof.
  intros Hc Hl Hb.
  assert (Hby : Operator.by_char c = Some op /\ Operator.symbol op = c /\
                is_digit10 c = false /\ (c =? chr "."%char) = false /\
                (c =? chr "("%char) = false /\ (c =? chr ")"%char) = false /\
                is_whitespace c = false)
    by (destruct Hc as [[-> ->]|[-> ->]]; vm_compute; repeat split).
  destruct Hby as (Hby & Hsym & Hd & Hdot & Ho & Hcl & Hw).
  unfold step. rewrite Hd, Hdot, flush_nil by reflexivity. cbn [bind].
  rewrite Ho, Hcl, Hw. cbn [negb holding output temp last_token].
  rewrite Hby.
  assert (Hu : unary_adjust last op = unary_op op).
  { unfold unary_adjust. rewrite Hsym.
    replace ((c =? chr "+"%char) || (c =? chr "-"%char)) with true
      by (destruct Hc as [[-> _]|[-> _]]; reflexivity).
    destruct last as [[| |]|]; simpl in Hl; try contradiction; unfold unary_op; rewrite Hsym; reflexivity. }
  rewrite Hu, pop_ops_blocked by exact Hb. reflexivity.
Qed.

Lemma step_open (h o : list Token.t) (last : option Token.t) :
  step (mkState h o [] last) (chr "("%char) =
  Ok (mkState (Token.OpenParen :: h) o [] (Some Token.OpenParen)).
Proof. reflexivity. Qed.

Lemma step_close (p : N) (P h o : list Token.t) (last : option Token.t) :
  pending_ok p P ->
  step (mkState (P ++ Token.OpenParen :: h) o [] last) (chr ")"%char) =
  Ok (mkState h (o ++ P) [] (Some Token.OpenParen)).
Proof.
  intros HP. unfold step. cbn -[pop_until_paren].
  rewrite (pop_until_paren_pending p) by exact HP. reflexivity.
Qed.

(** ** The scan of a well-formed infix expression *)

Lemma primary_level (e : Infix.expr) : Infix.is_primary e = true -> Infix.level e = 256.
Proof. destruct e; simpl; congruence. Qed.

Lemma primary_not_unary (e : Infix.expr) : Infix.is_primary e = true -> Infix.starts_unary e = false.
Proof. destruct e; simpl; congruence. Qed.

(** Scanning [e] from a holding stack that [e]'s operators do not pop
    emits [Q] and leaves [P] on top of the stack; [Q ++ P] is the postfix
    form of [e], whose evaluation pushes the value of [e]. *)
Lemma scan_expr (e : Infix.expr) :
  Infix.wf e ->
  forall h o last,
  blocks h (Infix.level e) ->
  (Infix.starts_unary e = true -> unary_ctx last) ->
  exists P Q last',
    Infix.lscan (mkState h o [] last) (Infix.tokens e) = Ok (mkState (P ++ h) (o ++ Q) [] last') /\
    after_operand last' /\
    pending_ok (Infix.level e) P /\
    forall s, solve_loop (Q ++ P) s = Ok (Infix.den e :: s).
Proof.
  induction e as [ds|bo a IHa b IHb|a IHa|a IHa|a IHa]; intros Hwf h o last Hb Hu.
  - (* a numeral *)
    destruct (numeral_parse ds Hwf) as [v Hv].
    exists [], [Token.NumericLiteral v], (Some (Token.NumericLiteral v)).
    destruct ds as [|d ds]; [discriminate Hwf|].
    cbn [Infix.tokens Infix.lscan Infix.lstep]. unfold flush; cbn [temp]. rewrite Hv.
    repeat split; [constructor|]. intros s. simpl. rewrite Hv. reflexivity.
  - (* a binary operation *)
    destruct Hwf as (Hwa & Hwb & Hla & Hlb). cbn [Infix.level] in Hb.
    destruct (IHa Hwa h o last) as (Pa & Qa & la & Hsa & Hla' & Hpa & Hva);
      [eapply blocks_mono; eauto | exact Hu |].
    destruct (IHb Hwb (Token.Operator (binop_op bo) :: h) ((o ++ Qa) ++ Pa)
                  (Some (Token.Operator (binop_op bo))))
      as (Pb & Qb & lb & Hsb & Hlb' & Hpb & Hvb);
      [destruct bo; simpl in *; lia | intros _; exact I |].
    exists (Pb ++ [Token.Operator (binop_op bo)]), (Qa ++ Pa ++ Qb), lb.
    split; [|split; [exact Hlb'|split]].
    + cbn [Infix.tokens]. rewrite lscan_app, Hsa. cbn [bind Infix.lscan Infix.lstep].
      rewrite (step_binop bo (Infix.level a)) by assumption. cbn [bind].
      rewrite Hsb. cbn [bind]. rewrite <- !app_assoc. reflexivity.
    + apply Forall_app. split.
      * eapply pending_ok_mono; [exact Hpb|]. cbn [Infix.level]. lia.
      * constructor; [|constructor]. cbn [Infix.level]. destruct bo; simpl; lia.
    + intros s. cbn [Infix.den].
      replace ((Qa ++ Pa ++ Qb) ++ Pb ++ [Token.Operator (binop_op bo)])
        with ((Qa ++ Pa) ++ (Qb ++ Pb) ++ [Token.Operator (binop_op bo)])
        by (rewrite <- !app_assoc; reflexivity).
      rewrite solve_loop_app, Hva. cbn [bind]. rewrite solve_loop_app, Hvb. cbn [bind].
      apply solve_binop.
  - (* a prefix minus *)
    destruct Hwf as (Hp & Hwa). specialize (Hu eq_refl).
    destruct (IHa Hwa (Token.Operator (unary_op Operator.Subtract) :: h) o
                  (Some (Token.Operator (unary_op Operator.Subtract))))
      as (Pa & Qa & la & Hsa & Hla & Hpa & Hva);
      [rewrite (primary_level a Hp); simpl; lia | rewrite (primary_not_unary a Hp); discriminate |].
    exists (Pa ++ [Token.Operator (unary_op Operator.Subtract)]), Qa, la.
    split; [|split; [exact Hla|split]].
    + cbn [Infix.tokens Infix.lscan Infix.lstep].
      rewrite (step_unary _ Operator.Subtract) by (auto; simpl in Hb; exact Hb).
      cbn [bind]. rewrite Hsa. rewrite <- app_assoc. reflexivity.
    + apply Forall_app. split.
      * eapply pending_ok_mono; [exact Hpa|]. rewrite (primary_level a Hp). simpl. lia.
      * constructor; [|constructor]. simpl. lia.
    + intros s. rewrite app_assoc, solve_loop_app, Hva. cbn [bind].
      rewrite solve_unary by auto. reflexivity.
  - (* a prefix plus *)
    destruct Hwf as (Hp & Hwa). specialize (Hu eq_refl).
    destruct (IHa Hwa (Token.Operator (unary_op Operator.Add) :: h) o
                  (Some (Token.Operator (unary_op Operator.Add))))
      as (Pa & Qa & la & Hsa & Hla & Hpa & Hva);
      [rewrite (primary_level a Hp); simpl; lia | rewrite (primary_not_unary a Hp); discriminate |].
    exists (Pa ++ [Token.Operator (unary_op Operator.Add)]), Qa, la.
    split; [|split; [exact Hla|split]].
    + cbn [Infix.tokens Infix.lscan Infix.lstep].
      rewrite (step_unary _ Operator.Add) by (auto; simpl in Hb; exact Hb).
      cbn [bind]. rewrite Hsa. rewrite <- app_assoc. reflexivity.
    + apply Forall_app. split.
      * eapply pending_ok_mono; [exact Hpa|]. rewrite (primary_level a Hp). simpl. lia.
      * constructor; [|constructor]. simpl. lia.
    + intros s. rewrite app_assoc, solve_loop_app, Hva. cbn [bind].
      rewrite solve_unary by auto. reflexivity.
  - (* a parenthesised group *)
    destruct Hwf as (Hwa & Hnu).
    destruct (IHa Hwa (Token.OpenParen :: h) o (Some Token.OpenParen))
      as (Pa & Qa & la & Hsa & Hla & Hpa & Hva);
      [exact I | rewrite Hnu; discriminate |].
    exists [], (Qa ++ Pa), (Some Token.OpenParen).
    split; [|split; [exact I|split; [constructor|]]].
    + cbn [Infix.tokens Infix.lscan Infix.lstep]. rewrite step_open. cbn [bind].
      rewrite lscan_app, Hsa. cbn [bind Infix.lscan Infix.lstep].
      rewrite (step_close _ _ _ _ _ Hpa). cbn [bind]. rewrite <- app_assoc. reflexivity.
    + intros s. rewrite app_nil_r. apply Hva.
Qed.

Lemma lex_ok_app_sym (l1 l2 : list Infix.lexeme) (c : char) :
  lex_ok l1 -> sym_ok c = true -> lex_ok l2 -> lex_ok (l1 ++ Infix.LSym c :: l2).
Proof.
  intros H1 Hc H2. induction l1 as [|x l1 IH]; [simpl; auto|].
  destruct H1 as (Hx & Hadj & H1). split; [exact Hx|split; [|exact (IH H1)]].
  destruct l1 as [|y l1]; destruct x; simpl; auto.
Qed.

Lemma tokens_lex_ok (e : Infix.expr) : Infix.wf e -> lex_ok (Infix.tokens e).
Proof.
  induction e as [ds|bo a IHa b IHb|a IHa|a IHa|a IHa]; simpl; intros Hwf.
  - repeat split; auto.
  - destruct Hwf as (Hwa & Hwb & _). apply lex_ok_app_sym; auto. destruct bo; reflexivity.
  - destruct Hwf as (_ & Hwa). repeat split; auto.
  - destruct Hwf as (_ & Hwa). repeat split; auto.
  - destruct Hwf as (Hwa & _). split; [reflexivity|split; [exact I|]].
    apply lex_ok_app_sym; [auto|reflexivity|exact I].
Qed.

(** ** Helpers for the claims about errors *)

Lemma flush_holding (st st1 : state) :
  flush st = Ok st1 -> holding st1 = holding st /\ temp st1 = [].
Proof.
  intros Hf. split; [|exact (flush_temp _ _ Hf)].
  revert Hf. unfold flush. destruct (temp st); [intros H; injection H as <-; reflexivity|].
  destruct (parse_f64 _); intros H; [injection H as <-; reflexivity|discriminate].
Qed.

Lemma pop_until_paren_none (h o : list Token.t) :
  ~ In Token.OpenParen h -> pop_until_paren h o = ([], o ++ h).
Proof.
  revert o. induction h as [|t h IH]; intros o Hn; simpl; [rewrite app_nil_r; reflexivity|].
  destruct t as [v|op|]; [| |exfalso; apply Hn; left; reflexivity];
    rewrite IH by (intros Hin; apply Hn; right; exact Hin);
    rewrite <- app_assoc; reflexivity.
Qed.

Lemma pop_until_paren_found (ops h o : list Token.t) :
  ~ In Token.OpenParen ops ->
  pop_until_paren (ops ++ Token.OpenParen :: h) o = (Token.OpenParen :: h, o ++ ops).
Proof.
  revert o. induction ops as [|t ops IH]; intros o Hn; simpl; [rewrite app_nil_r; reflexivity|].
  destruct t as [v|op|]; [| |exfalso; apply Hn; left; reflexivity];
    rewrite IH by (intros Hin; apply Hn; right; exact Hin);
    rewrite <- app_assoc; reflexivity.
Qed.

Lemma pop_args_no_err (n : nat) (solve args : list float) :
  match pop_args n solve args with Err _ => False | _ => True end.
Proof.
  revert solve args. induction n as [|n IH]; intros [|v solve] args; cbn [pop_args];
    [exact I|exact I|exact I|apply IH].
Qed.

(** The evaluation of a queue holding an [OpenParen] never succeeds: it
    stops at the first operator short of operands or at the parenthesis. *)
Lemma solve_loop_paren (out : list Token.t) (s : list float) :
  In Token.OpenParen out ->
  match solve_loop out s with
  | Ok _ => False
  | Err e => e = NotEnoughArguments \/ e = UnexpectedToken Token.OpenParen
  | Panic => True
  end.
Proof.
  revert s. induction out as [|t out IH]; intros s Hin; [destruct Hin|].
  destruct t as [num|op|]; cbn [solve_loop].
  - apply IH. destruct Hin as [H|H]; [discriminate H|exact H].
  - assert (Hin' : In Token.OpenParen out) by (destruct Hin as [H|H]; [discriminate H|exact H]).
    destruct (_ <? _); [left; reflexivity|].
    destruct (_ && _); [apply IH, Hin'|].
    destruct (_ && _); [destruct s; [exact I|apply IH, Hin']|].
    pose proof (pop_args_no_err (N.to_nat (Operator.argc op)) s []) as Hpe.
    destruct (pop_args _ _ _) as [[args s']|e|]; cbn [bind]; [|destruct Hpe|exact I].
    destruct (_ <? _); [left; reflexivity|].
    destruct (Operator.resolve _ _); [apply IH, Hin'|exact I].
  - right; reflexivity.
Qed.

Lemma digits_dots_digits (seen : bool) (d l : list char) :
  Forall (fun x => is_digit10 x = true) d ->
  Infix.digits_dots seen (d ++ l) = Infix.digits_dots seen l.
Proof.
  induction 1 as [|x d Hx _ IH]; [reflexivity|]. cbn [app Infix.digits_dots]. rewrite Hx. exact IH.
Qed.

Lemma eval_scan (s : list char) :
  eval s = bind (scan init s) (fun st =>
             bind (finish st) (fun out =>
               bind (solve_loop out []) (fun solve =>
                 match solve with v :: _ => Ok v | [] => Err NoResult end))).
Proof. reflexivity. Qed.

(** ** Operator lookup *)

(** C1: [Operator::by_char] does not return the division operator for
    ['/']: the table [MAP] is not sorted by key (['/'] is 47 and comes
    before ['*'] = 42), so [binary_search_by] never reaches its first entry.
    This holds for both Rust search algorithms.  The other three symbols
    are found, and every other char gives [None]. *)
Theorem by_char_divide_missing :
  Operator.by_char (chr "/"%char) = None /\
  Operator.by_char_1_52 (chr "/"%char) = None /\
  (forall c, Operator.by_char c = by_char_expected c).
Proof.
  split; [|split].
  - rewrite (proj1 (by_char_table _)). reflexivity.
  - rewrite (proj2 (by_char_table _)). reflexivity.
  - intros c. exact (proj1 (by_char_table c)).
Qed.

(** ** Whole expressions *)

(** C2 (amended): every well-formed infix expression over numerals, [*],
    binary [+] and [-], prefix signs and parentheses evaluates to its
    value, whatever whitespace is written before, between and after its
    lexemes ([w0] in front, then each lexeme followed by its gap from
    [ws]; any gap may be empty).  The reading follows the table's
    precedences: [*] above [+] above [-], each level left-associative, so
    [a - b + c] is [a - (b + c)] and [1 - 2 + 3] gives [-4].  A prefix sign
    applies to a numeral or a parenthesised group at the start of the
    expression or right after a binary operator.  In particular the four
    examples of the specification give 11, 14, 1 and 5. *)
Theorem eval_infix (e : Infix.expr) (w0 : list char) (ws : list (list char))
  (Hwf : Infix.wf e) (Hws : Forall (fun w => forallb is_whitespace w = true) (w0 :: ws)) :
  eval (w0 ++ Infix.render ws (Infix.tokens e)) = Ok (Infix.den e) /\
  eval (str "3 + 4 * 2") = Ok 11%float /\ eval (str "(3 + 4) * 2") = Ok 14%float /\
  eval (str "-3 + 4") = Ok 1%float /\ eval (str "2 - -3") = Ok 5%float /\
  eval (str "1 - 2 + 3") = Ok (-4)%float.
Proof.
  split; [|repeat split; vm_compute; reflexivity].
  inversion Hws as [|? ? Hw0 Hws']; subst.
  rewrite eval_scan, (scan_ws init w0 _ Hw0 eq_refl), <- bind_assoc.
  rewrite (scan_render ws _ init Hws' eq_refl (tokens_lex_ok e Hwf)).
  destruct (scan_expr e Hwf [] [] None I (fun _ => I)) as (P & Q & l & Hs & _ & _ & Hv).
  change init with (mkState [] [] [] None). rewrite Hs. cbn [bind]. unfold finish; cbn [temp output holding].
  rewrite app_nil_r; cbn [app bind]. rewrite Hv. reflexivity.
Qed.

(** [(3 + 4) * 2], as a tree. *)
Definition infix_sample : Infix.expr :=
  Infix.Bin Infix.Mul
    (Infix.Par (Infix.Bin Infix.Plus (Infix.Lit (str "3")) (Infix.Lit (str "4"))))
    (Infix.Lit (str "2")).

(** Gaps of unequal width, some empty, and a tab at the end. *)
Definition infix_sample_gaps : list (list char) :=
  [[]; str " "; str " "; []; str "   "; []; [9]].

Lemma eval_infix_witness :
  str " " ++ Infix.render infix_sample_gaps (Infix.tokens infix_sample) = str " (3 + 4)   *2" ++ [9] /\
  eval (str " (3 + 4)   *2" ++ [9]) = Ok 14%float.
Proof.
  assert (Hr : str " " ++ Infix.render infix_sample_gaps (Infix.tokens infix_sample)
               = str " (3 + 4)   *2" ++ [9]) by (vm_compute; reflexivity).
  split; [exact Hr|]. rewrite <- Hr.
  rewrite (proj1 (eval_infix infix_sample (str " ") infix_sample_gaps
             ltac:(vm_compute; repeat split; try reflexivity; discriminate)
             ltac:(repeat constructor))).
  vm_compute. reflexivity.
Defined.

(** C2 counterexample: ordinary arithmetic reads [1 - 2 + 3] as
    [(1 - 2) + 3 = 2]; the program gives [1 - (2 + 3) = -4]. *)
Lemma eval_infix_counterexample :
  eval (str "1 - 2 + 3") <> Ok ((1 - 2) + 3)%float.
Proof.
  intros H.
  apply (f_equal (fun r => match r with Ok x => PrimFloat.eqb x 2%float | _ => false end)) in H.
  vm_compute in H. discriminate H.
Qed.

(** C3: [1 / 0] is not evaluated to infinity: ['/'] is not found by
    [by_char] and the scan fails with [InvalidCharacter].  The evaluator on
    its own would give [+inf] for the postfix queue [1 0 /]. *)
Theorem eval_div_by_zero :
  eval (str "1 / 0") = Err InvalidCharacter /\
  solve_loop [Token.NumericLiteral 1; Token.NumericLiteral 0; Token.Operator Operator.Divide] []
    = Ok [infinity].
Proof. split; vm_compute; reflexivity. Qed.

(** C4 (amended): a numeral with two decimal points and nothing but digits
    in between fails with [DuplicateDecimal], wherever it starts after a
    completed scan prefix; whitespace around the dots, as in [3 . 5 . 2],
    instead flushes each lone ["."] as a numeral, which fails with
    [NumberParseError]. *)
Theorem duplicate_decimal (pre d1 d2 rest : list char) (st : state)
  (Hscan : scan init pre = Ok st) (Ht : temp st = [])
  (H1 : Forall (fun x => is_digit10 x = true) d1)
  (H2 : Forall (fun x => is_digit10 x = true) d2) :
  eval (pre ++ d1 ++ chr "."%char :: d2 ++ chr "."%char :: rest) = Err DuplicateDecimal /\
  eval (str "3 . 5 . 2") = Err NumberParseError.
Proof.
  split; [|vm_compute; reflexivity].
  assert (Hd : is_digit10 (chr "."%char) = false) by reflexivity.
  rewrite eval_scan, scan_app, Hscan. cbn [bind].
  replace (d1 ++ chr "."%char :: d2 ++ chr "."%char :: rest)
    with ((d1 ++ chr "."%char :: d2) ++ chr "."%char :: rest)
    by (rewrite <- app_assoc; reflexivity).
  rewrite scan_app, scan_digits.
  2:{ rewrite Ht. cbn [existsb]. rewrite digits_dots_digits by exact H1.
      cbn [Infix.digits_dots]. rewrite Hd, N.eqb_refl. cbn [negb andb].
      pose proof (digits_dots_digits true d2 [] H2) as E.
      rewrite app_nil_r in E. rewrite E. reflexivity. }
  cbn [bind scan]. unfold step; cbn [temp].
  rewrite Hd, N.eqb_refl, Ht. cbn [app].
  rewrite existsb_app. cbn [existsb]. rewrite N.eqb_refl, orb_true_r. cbn [orb bind].
  reflexivity.
Qed.

Lemma duplicate_decimal_witness :
  eval (str "2 * 3.5.2") = Err DuplicateDecimal /\ eval (str "3 . 5 . 2") = Err NumberParseError.
Proof.
  exact (duplicate_decimal (str "2 * ") (str "3") (str "5") (str "2")
           (mkState [Token.Operator Operator.Multiply] [Token.NumericLiteral 2] []
              (Some (Token.Operator Operator.Multiply)))
           ltac:(vm_compute; reflexivity) eq_refl
           ltac:(repeat constructor) ltac:(repeat constructor)).
Defined.

(** C4 counterexample: [3 . 5 . 2] has more than one decimal point but
    fails with [NumberParseError], not [DuplicateDecimal]. *)
Lemma duplicate_decimal_counterexample :
  eval (str "3 . 5 . 2") <> Err DuplicateDecimal.
Proof. vm_compute. discriminate. Qed.

(** C5: a prefix [-] right after ['('] is not made unary, since
    [unary_adjust] leaves the operator unchanged when the last token is an
    [OpenParen]; [(-3)] then fails with [NotEnoughArguments].  At the start
    and after an operator the sign is made unary. *)
Theorem open_paren_sign_binary :
  eval (str "(-3)") = Err NotEnoughArguments /\
  eval (str "(+3)") = Err NotEnoughArguments /\
  (forall op, unary_adjust (Some Token.OpenParen) op = op) /\
  unary_adjust None Operator.Subtract = unary_op Operator.Subtract /\
  (forall op', unary_adjust (Some (Token.Operator op')) Operator.Subtract
               = unary_op Operator.Subtract).
Proof.
  split; [vm_compute; reflexivity|].
  split; [vm_compute; reflexivity|].
  split; [|split; reflexivity].
  intros op. unfold unary_adjust. destruct (_ || _); reflexivity.
Qed.

(** C6: each binary operator of the table takes the value pushed first as
    its left operand: the postfix queue [a b op] yields [a op b]. *)
Theorem resolve_operand_order (a b : float) (s : list float) :
  solve_loop [Token.NumericLiteral a; Token.NumericLiteral b; Token.Operator Operator.Divide] s
    = Ok ((a / b)%float :: s) /\
  solve_loop [Token.NumericLiteral a; Token.NumericLiteral b; Token.Operator Operator.Multiply] s
    = Ok ((a * b)%float :: s) /\
  solve_loop [Token.NumericLiteral a; Token.NumericLiteral b; Token.Operator Operator.Add] s
    = Ok ((a + b)%float :: s) /\
  solve_loop [Token.NumericLiteral a; Token.NumericLiteral b; Token.Operator Operator.Subtract] s
    = Ok ((a - b)%float :: s).
Proof.
  cbn [solve_loop]. repeat split;
    cbn [List.length Operator.argc Operator.symbol Operator.Divide Operator.Multiply
         Operator.Add Operator.Subtract];
    (destruct (N.of_nat _ <? 2) eqn:E; [exfalso; apply N.ltb_lt in E; lia|]);
    reflexivity.
Qed.

(** C9: [eval "+"] fails with [NotEnoughArguments] (the lone [+] is unary
    and finds no operand), and any operator token reached with fewer values
    on the operand stack than its [argc] fails the same way. *)
Theorem not_enough_arguments (op : Operator.t) (out : list Token.t) (s : list float)
  (Hlt : N.of_nat (List.length s) < Operator.argc op) :
  eval (str "+") = Err NotEnoughArguments /\
  solve_loop (Token.Operator op :: out) s = Err NotEnoughArguments.
Proof.
  split; [vm_compute; reflexivity|].
  cbn [solve_loop]. apply N.ltb_lt in Hlt. rewrite Hlt. reflexivity.
Qed.

Lemma not_enough_arguments_witness :
  eval (str "+") = Err NotEnoughArguments /\
  solve_loop [Token.Operator Operator.Divide] [1%float] = Err NotEnoughArguments.
Proof.
  exact (not_enough_arguments Operator.Divide [] [1%float] ltac:(vm_compute; reflexivity)).
Defined.

(** C10: when the evaluation of the output queue leaves several values,
    [eval] returns the most recently pushed one and drops the rest; in
    particular [eval "3 4"] is [Ok 4]. *)
Theorem eval_returns_top (s : list char) (st : state) (out : list Token.t)
  (v : float) (rest : list float)
  (Hscan : scan init s = Ok st) (Hfin : finish st = Ok out)
  (Hsolve : solve_loop out [] = Ok (v :: rest)) :
  eval s = Ok v /\ eval (str "3 4") = Ok 4%float.
Proof.
  split; [|vm_compute; reflexivity].
  rewrite eval_scan, Hscan. cbn [bind]. rewrite Hfin. cbn [bind].
  rewrite Hsolve. reflexivity.
Qed.

Lemma eval_returns_top_witness :
  eval (str "1 2 * 3") = Ok 6%float /\ eval (str "3 4") = Ok 4%float.
Proof.
  exact (eval_returns_top (str "1 2 * 3")
           (mkState [Token.Operator Operator.Multiply] [Token.NumericLiteral 1; Token.NumericLiteral 2]
              (str "3") (Some (Token.Operator Operator.Multiply)))
           [Token.NumericLiteral 1; Token.NumericLiteral 2; Token.NumericLiteral 3;
            Token.Operator Operator.Multiply]
           6%float [1%float] ltac:(vm_compute; reflexivity) ltac:(vm_compute; reflexivity)
           ltac:(vm_compute; reflexivity)).
Defined.

(** ** Shape of one step of the scan *)

Lemma pop_until_paren_spec (h o : list Token.t) :
  exists popped h',
    pop_until_paren h o = (h', o ++ popped) /\ h = popped ++ h' /\
    ~ In Token.OpenParen popped /\ (h' = [] \/ exists r, h' = Token.OpenParen :: r).
Proof.
  revert o. induction h as [|t h IH]; intros o.
  - exists [], []. rewrite app_nil_r. repeat split; auto.
  - destruct t as [v|op|].
    + destruct (IH (o ++ [Token.NumericLiteral v])) as (p & h' & E & -> & Hn & Hh).
      exists (Token.NumericLiteral v :: p), h'. cbn [pop_until_paren]. rewrite E, <- app_assoc.
      repeat split; auto. intros [H|H]; [discriminate H|contradiction].
    + destruct (IH (o ++ [Token.Operator op])) as (p & h' & E & -> & Hn & Hh).
      exists (Token.Operator op :: p), h'. cbn [pop_until_paren]. rewrite E, <- app_assoc.
      repeat split; auto. intros [H|H]; [discriminate H|contradiction].
    + exists [], (Token.OpenParen :: h). rewrite app_nil_r. repeat split; eauto.
Qed.

Lemma pop_ops_spec (op : Operator.t) (h o : list Token.t) :
  exists popped h',
    pop_ops op h o = (h', o ++ popped) /\ h = popped ++ h' /\
    Forall (fun t => exists p, t = Token.Operator p) popped /\
    match h' with
    | Token.Operator q :: _ => Operator.precedence q < Operator.precedence op
    | _ => True
    end.
Proof.
  revert o. induction h as [|t h IH]; intros o.
  - exists [], []. rewrite app_nil_r. repeat split; auto.
  - destruct t as [v|p|].
    + exists [], (Token.NumericLiteral v :: h). rewrite app_nil_r. repeat split; auto.
    + cbn [pop_ops]. destruct (Operator.precedence op <=? Operator.precedence p) eqn:E.
      * destruct (IH (o ++ [Token.Operator p])) as (pp & h' & E' & -> & Hp & Hh).
        exists (Token.Operator p :: pp), h'. rewrite E', <- app_assoc.
        repeat split; eauto.
      * exists [], (Token.Operator p :: h). rewrite app_nil_r. repeat split; auto.
        apply N.leb_gt in E. exact E.
    + exists [], (Token.OpenParen :: h). rewrite app_nil_r. repeat split; auto.
Qed.

Lemma by_char_ok (c : char) (op : Operator.t) :
  Operator.by_char c = Some op ->
  op = Operator.Multiply \/ op = Operator.Add \/ op = Operator.Subtract.
Proof.
  rewrite (proj1 (by_char_table c)). unfold by_char_expected.
  destruct (c =? _); [intros H; injection H as <-; auto|].
  destruct (c =? _); [intros H; injection H as <-; auto|].
  destruct (c =? _); [intros H; injection H as <-; auto|discriminate].
Qed.

Lemma unary_adjust_ok (last : option Token.t) (op : Operator.t) :
  op = Operator.Multiply \/ op = Operator.Add \/ op = Operator.Subtract ->
  op_ok (unary_adjust last op).
Proof.
  unfold op_ok. intros [ -> | [ -> | -> ] ]; unfold unary_adjust; cbn [Operator.symbol];
    [cbn; auto| |];
    (destruct last as [[v|p|]|]; cbn [orb]; unfold Operator.Add, Operator.Subtract, unary_op;
     cbn; auto 6).
Qed.

Lemma step_no_panic (st : state) (c : char) : step st c <> Panic.
Proof.
  unfold step. destruct (is_digit10 c); [discriminate|].
  destruct (c =? _); [destruct (existsb _ _); discriminate|].
  unfold flush. destruct (temp st) as [|d ds].
  2: destruct (parse_f64 _); cbn [bind]; [|discriminate].
  all: cbn [bind]; destruct (c =? chr "("%char); [discriminate|];
    destruct (c =? chr ")"%char);
    [destruct (pop_until_paren _ _) as [[|t h] o]; discriminate|];
    destruct (negb _); [|discriminate];
    destruct (Operator.by_char c); [destruct (pop_ops _ _ _)|]; discriminate.
Qed.

Lemma scan_no_panic (st : state) (s : list char) : scan st s <> Panic.
Proof.
  revert st. induction s as [|c s IH]; intros st; cbn [scan]; [discriminate|].
  pose proof (step_no_panic st c) as H.
  destruct (step st c); cbn [bind]; [apply IH|discriminate|contradiction].
Qed.

(** A step either appends a digit or a dot to [temp], or flushes [temp]
    and then appends to the output queue. *)
Lemma step_shape (st st' : state) (c : char) :
  step st c = Ok st' ->
  (digit_or_dot c = true /\ holding st' = holding st /\ output st' = output st /\
   temp st' = temp st ++ [c]) \/
  (digit_or_dot c = false /\ temp st' = [] /\
   exists st1 x, flush st = Ok st1 /\ output st' = output st1 ++ x).
Proof.
  unfold step, digit_or_dot. destruct (is_digit10 c) eqn:Hd.
  - intros H. injection H as <-. left. auto.
  - destruct (c =? chr "."%char) eqn:Hdot.
    + destruct (existsb _ _); [discriminate|]. intros H. injection H as <-. left. auto.
    + intros H. right. cbn [orb]. split; [reflexivity|].
      destruct (flush st) as [st1| |] eqn:Hf; cbn [bind] in H; try discriminate.
      pose proof (flush_temp _ _ Hf) as Ht.
      destruct (c =? chr "("%char).
      { injection H as <-. split; [exact Ht|]. exists st1, []. rewrite app_nil_r. auto. }
      destruct (c =? chr ")"%char).
      { destruct (pop_until_paren_spec (holding st1) (output st1)) as (p & h' & E & _).
        rewrite E in H. destruct h' as [|t h]; [discriminate|].
        injection H as <-. split; [exact Ht|]. exists st1, p. auto. }
      destruct (negb _); [|injection H as <-; split; [exact Ht|];
                           exists st1, []; rewrite app_nil_r; auto].
      destruct (Operator.by_char c) as [op0|]; [|discriminate].
      destruct (pop_ops_spec (unary_adjust (last_token st1) op0) (holding st1) (output st1))
        as (p & h' & E & _).
      rewrite E in H. injection H as <-. split; [exact Ht|]. exists st1, p. auto.
Qed.

(** ** The scan invariant *)

Lemma digits_dots_app (seen : bool) (l1 l2 : list char) :
  Infix.digits_dots seen (l1 ++ l2) =
  Infix.digits_dots seen l1 && Infix.digits_dots (seen || existsb (N.eqb (chr "."%char)) l1) l2.
Proof.
  revert seen. induction l1 as [|d l1 IH]; intros seen; cbn [app Infix.digits_dots existsb].
  - rewrite orb_false_r. reflexivity.
  - destruct (is_digit10 d) eqn:Hd.
    + assert (Hnd : (chr "."%char =? d) = false).
      { apply N.eqb_neq. intros <-. vm_compute in Hd. discriminate Hd. }
      rewrite Hnd. apply IH.
    + destruct (d =? chr "."%char) eqn:Hdot; [|reflexivity].
      rewrite N.eqb_sym, Hdot, IH, orb_true_r, orb_true_l. destruct seen; reflexivity.
Qed.

Lemma prec_chain_app (p h : list Token.t) : prec_chain (p ++ h) -> prec_chain h.
Proof. induction p as [|t p IH]; [auto|]. intros [_ H]. apply IH, H. Qed.

Lemma scan_inv_init : scan_inv init.
Proof. repeat split; constructor. Qed.

Lemma flush_inv (st st1 : state) : scan_inv st -> flush st = Ok st1 -> scan_inv st1.
Proof.
  intros (Hh & Ho & Hc & Ht). unfold flush.
  destruct (temp st) as [|d ds] eqn:E.
  { intros H; injection H as <-. split; [|split; [|split]]; auto. rewrite E. reflexivity. }
  destruct (parse_f64 _) as [v|]; [|discriminate]. intros H. injection H as <-.
  split; [|split; [|split]]; cbn [holding output temp]; auto.
  apply Forall_app. split; [exact Ho|]. repeat constructor.
Qed.

Lemma step_inv (st st' : state) (c : char) : scan_inv st -> step st c = Ok st' -> scan_inv st'.
Proof.
  intros Hinv. pose proof Hinv as (Hh & Ho & Hc & Ht). unfold step.
  destruct (is_digit10 c) eqn:Hd.
  { intros H. injection H as <-. repeat split; auto. cbn [temp].
    rewrite digits_dots_app, Ht. cbn. rewrite Hd. reflexivity. }
  destruct (c =? chr "."%char) eqn:Hdot.
  { destruct (existsb _ _) eqn:Hex; [discriminate|]. intros H. injection H as <-.
    repeat split; auto. cbn [temp]. rewrite digits_dots_app, Ht, Hex. cbn [orb andb Infix.digits_dots]. rewrite Hd, Hdot.
    reflexivity. }
  destruct (flush st) as [st1| |] eqn:Hf; cbn [bind]; try discriminate.
  pose proof (flush_inv st st1 Hinv Hf) as (Hh1 & Ho1 & Hc1 & Ht1).
  destruct (c =? chr "("%char).
  { intros H. injection H as <-. split; [constructor; [exact I|exact Hh1]|]. split; [exact Ho1|]. split; [exact (conj I Hc1)|exact Ht1]. }
  destruct (c =? chr ")"%char).
  { destruct (pop_until_paren_spec (holding st1) (output st1)) as (p & h' & E & Eh & Hn & Hh').
    rewrite E. destruct h' as [|t h]; [discriminate|].
    intros H. injection H as <-. rewrite Eh in Hh1, Hc1.
    apply Forall_app in Hh1 as [Hp Hth]. apply prec_chain_app in Hc1.
    destruct Hh' as [|[r Er]]; [discriminate|]. injection Er as -> ->.
    inversion Hth as [|? ? _ Hr]; subst. destruct Hc1 as [_ Hcr].
    split; [|split; [|split]]; cbn [holding output temp]; auto.
    apply Forall_app. split; [exact Ho1|].
    revert Hp Hn. clear. induction p as [|t p IH]; intros Hp Hn; [constructor|].
    inversion Hp as [|? ? Ht Hp']; subst. constructor.
    - destruct t as [v|op|]; [contradiction|exact Ht|exfalso; apply Hn; left; reflexivity].
    - apply IH; [exact Hp'|intros Hin; apply Hn; right; exact Hin]. }
  destruct (negb _); [|intros H; injection H as <-; exact (conj Hh1 (conj Ho1 (conj Hc1 Ht1)))].
  destruct (Operator.by_char c) as [op0|] eqn:Hb; [|discriminate].
  pose proof (unary_adjust_ok (last_token st1) op0 (by_char_ok c op0 Hb)) as Hop.
  destruct (pop_ops_spec (unary_adjust (last_token st1) op0) (holding st1) (output st1))
    as (p & h' & E & Eh & Hp & Htop).
  rewrite E. intros H. injection H as <-. rewrite Eh in Hh1, Hc1.
  apply Forall_app in Hh1 as [Hhp Hh']. apply prec_chain_app in Hc1.
  split; [|split; [|split]]; cbn [holding output temp].
  - constructor; [exact Hop|exact Hh'].
  - apply Forall_app. split; [exact Ho1|].
    revert Hp Hhp. clear. induction 1 as [|t p [q ->] _ IH]; intros Hhp; [constructor|].
    inversion Hhp as [|? ? Ht Hp']; subst. constructor; [exact Ht|apply IH, Hp'].
  - cbn [prec_chain]. split; [|exact Hc1].
    destruct h' as [|[v|q|] r]; auto.
  - exact Ht1.
Qed.

Lemma scan_inv_scan (st st' : state) (s : list char) :
  scan_inv st -> scan st s = Ok st' -> scan_inv st'.
Proof.
  revert st. induction s as [|c s IH]; intros st Hinv; cbn [scan].
  - intros H. injection H as <-. exact Hinv.
  - destruct (step st c) as [st1| |] eqn:E; cbn [bind]; try discriminate.
    apply IH. exact (step_inv st st1 c Hinv E).
Qed.

(** ** The evaluation of the output queue *)

Lemma solve_loop_no_panic (out : list Token.t) (s : list float) :
  Forall solve_tok_ok out -> solve_loop out s <> Panic.
Proof.
  revert s. induction out as [|t out IH]; intros s Hall; [discriminate|].
  inversion Hall as [|? ? Ht Hout]; subst.
  destruct t as [v|op|]; cbn [solve_loop]; [apply IH, Hout| |discriminate].
  destruct (N.of_nat (List.length s) <? Operator.argc op) eqn:E; [discriminate|].
  apply N.ltb_ge in E.
  destruct Ht as [ -> | [ -> | [ -> | [ -> | -> ] ] ] ];
    unfold Operator.Multiply, Operator.Add, Operator.Subtract, unary_op in *;
    cbn [Operator.argc] in E;
    destruct s as [|a [|b s]]; cbn [List.length] in E; try lia;
    cbn -[solve_loop]; apply IH; exact Hout.
Qed.

Lemma finish_cases (st : state) (out : list Token.t) :
  finish st = Ok out ->
  (temp st = [] /\ out = output st ++ holding st) \/
  (exists v, temp st <> [] /\ parse_f64 (temp st) = Some v /\
     out = output st ++ Token.NumericLiteral v :: holding st).
Proof.
  unfold finish. destruct (temp st) as [|d ds].
  - intros H. injection H as <-. left. auto.
  - destruct (parse_f64 _) as [v|]; [|discriminate]. intros H. injection H as <-.
    right. exists v. split; [discriminate|split; reflexivity].
Qed.

Lemma finish_err (st : state) (e : EvalError) :
  finish st = Err e -> e = NumberParseError /\ temp st <> [] /\ parse_f64 (temp st) = None.
Proof.
  unfold finish. destruct (temp st) as [|d ds]; [discriminate|].
  destruct (parse_f64 _); [discriminate|]. intros H. injection H as <-.
  split; [reflexivity|split; [discriminate|reflexivity]].
Qed.

Lemma finish_no_panic (st : state) : finish st <> Panic.
Proof. unfold finish. destruct (temp st); [|destruct (parse_f64 _)]; discriminate. Qed.

Lemma finish_tokens (st : state) (out : list Token.t) :
  scan_inv st -> finish st = Ok out -> Forall solve_tok_ok out.
Proof.
  intros (Hh & Ho & _ & _) Hf.
  assert (Ho' : Forall solve_tok_ok (output st))
    by (revert Ho; apply Forall_impl; intros [v|op|]; cbn; auto).
  assert (Hh' : Forall solve_tok_ok (holding st))
    by (revert Hh; apply Forall_impl; intros [v|op|]; cbn; auto).
  destruct (finish_cases st out Hf) as [[_ ->]|(v & _ & _ & ->)];
    apply Forall_app; split; auto; constructor; [exact I|exact Hh'].
Qed.

Lemma eval_no_panic_lemma (s : list char) : eval s <> Panic.
Proof.
  rewrite eval_scan. pose proof (scan_no_panic init s) as Hs.
  destruct (scan init s) as [st|e|] eqn:Es; cbn [bind]; [|discriminate|contradiction].
  pose proof (scan_inv_scan init st s scan_inv_init Es) as Hinv.
  pose proof (finish_no_panic st) as Hf.
  destruct (finish st) as [out|e|] eqn:Ef; cbn [bind]; [|discriminate|contradiction].
  pose proof (solve_loop_no_panic out [] (finish_tokens st out Hinv Ef)) as Hl.
  destruct (solve_loop out []) as [[|v r]|e|]; cbn [bind]; [discriminate|discriminate|discriminate|contradiction].
Qed.

Lemma solve_loop_err (out : list Token.t) (s : list float) (e : EvalError) :
  solve_loop out s = Err e ->
  e = NotEnoughArguments \/ (e = UnexpectedToken Token.OpenParen /\ In Token.OpenParen out).
Proof.
  revert s. induction out as [|t out IH]; intros s; cbn [solve_loop]; [discriminate|].
  destruct t as [v|op|].
  - intros H. destruct (IH _ H) as [He|[He Hin]]; [left; exact He|right; split; [exact He|right; exact Hin]].
  - assert (IH' : forall s', solve_loop out s' = Err e ->
                   e = NotEnoughArguments \/ (e = UnexpectedToken Token.OpenParen /\
                                              In Token.OpenParen (Token.Operator op :: out))).
    { intros s' H. destruct (IH _ H) as [He|[He Hin]]; [left|right]; auto with datatypes. }
    destruct (_ <? _); [intros H; injection H as <-; left; reflexivity|].
    destruct (_ && _); [apply IH'|].
    destruct (_ && _); [destruct s; [discriminate|apply IH']|].
    pose proof (pop_args_no_err (N.to_nat (Operator.argc op)) s []) as Hpe.
    destruct (pop_args _ _ _) as [[args s']|e'|]; cbn [bind]; [|destruct Hpe|discriminate].
    destruct (_ <? _); [intros H; injection H as <-; left; reflexivity|].
    destruct (Operator.resolve _ _); [apply IH'|discriminate].
  - intros H. injection H as <-. right. split; [reflexivity|left; reflexivity].
Qed.

(** Where an error of [eval] is raised: at a char of the scan, by the
    final flush, or by the evaluation of the output queue. *)
Lemma scan_err_split (st : state) (s : list char) (e : EvalError) :
  scan st s = Err e ->
  exists a c b st', s = a ++ c :: b /\ scan st a = Ok st' /\ step st' c = Err e.
Proof.
  revert st. induction s as [|c s IH]; intros st; cbn [scan]; [discriminate|].
  destruct (step st c) as [st1|e'|] eqn:E; cbn [bind]; [|intros H; injection H as <-|discriminate].
  - intros H. destruct (IH st1 H) as (a & c' & b & st' & -> & Ha & Hc).
    exists (c :: a), c', b, st'. cbn [scan]. rewrite E. auto.
  - exists [], c, s, st. auto.
Qed.

Lemma eval_err_cases (s : list char) (e : EvalError) :
  eval s = Err e ->
  (exists a c b st', s = a ++ c :: b /\ scan init a = Ok st' /\ step st' c = Err e) \/
  (exists st, scan init s = Ok st /\ finish st = Err e) \/
  (exists st out, scan init s = Ok st /\ finish st = Ok out /\ solve_loop out [] = Err e) \/
  (e = NoResult /\ exists st out, scan init s = Ok st /\ finish st = Ok out /\
                                  solve_loop out [] = Ok []).
Proof.
  rewrite eval_scan.
  destruct (scan init s) as [st|e'|] eqn:Es; cbn [bind]; [|intros H; injection H as <-|discriminate].
  2:{ left. apply scan_err_split, Es. }
  destruct (finish st) as [out|e'|] eqn:Ef; cbn [bind]; [|intros H; injection H as <-|discriminate].
  2:{ right; left. eauto. }
  destruct (solve_loop out []) as [[|v r]|e'|] eqn:Eo; cbn [bind]; try discriminate.
  - intros H. injection H as <-. right; right; right. split; [reflexivity|eauto].
  - intros H. injection H as <-. right; right; left. eauto.
Qed.

Lemma step_err (st : state) (c : char) (e : EvalError) :
  step st c = Err e ->
  (e = DuplicateDecimal /\ c = chr "."%char /\ existsb (N.eqb (chr "."%char)) (temp st) = true) \/
  (e = NumberParseError /\ digit_or_dot c = false /\ temp st <> [] /\ parse_f64 (temp st) = None) \/
  (e = MismatchedParenthesis /\ c = chr ")"%char /\ ~ In Token.OpenParen (holding st)) \/
  (e = InvalidCharacter /\ digit_or_dot c = false /\ c <> chr "("%char /\ c <> chr ")"%char /\
   is_whitespace c = false /\ Operator.by_char c = None).
Proof.
  unfold step, digit_or_dot. destruct (is_digit10 c) eqn:Hd; [discriminate|].
  destruct (c =? chr "."%char) eqn:Hdot.
  { destruct (existsb _ _) eqn:Hex; [|discriminate]. intros H. injection H as <-.
    left. apply N.eqb_eq in Hdot. auto. }
  cbn [orb]. unfold flush at 1.
  destruct (temp st) as [|d ds] eqn:Ht;
    [|destruct (parse_f64 (d :: ds)) eqn:Hp; cbn [bind];
      [|intros H; injection H as <-; right; left;
        split; [reflexivity|split; [reflexivity|split; [discriminate|reflexivity]]]]].
  all: cbn [bind].
  all: destruct (c =? chr "("%char) eqn:Ho; [discriminate|].
  all: destruct (c =? chr ")"%char) eqn:Hc.
  all: try (match goal with |- context [pop_until_paren ?h ?o] =>
              destruct (pop_until_paren_spec h o) as (p & h' & E & Eh & Hn & Hh'); rewrite E end;
            destruct h' as [|t h]; [|discriminate];
            intros H; injection H as <-; right; right; left;
            split; [reflexivity|]; split; [apply N.eqb_eq, Hc|];
            cbn [holding] in Eh; rewrite app_nil_r in Eh; rewrite Eh; exact Hn).
  all: destruct (is_whitespace c) eqn:Hw; cbn [negb]; [discriminate|].
  all: destruct (Operator.by_char c) as [op0|] eqn:Hb;
         [destruct (pop_ops _ _ _); discriminate|].
  all: intros H; injection H as <-; right; right; right.
  all: repeat split; auto; apply N.eqb_neq; assumption.
Qed.

(** ** [temp] is the run of digits and dots that ends the scanned input *)

Lemma no_dd_last_snoc (x : list char) (c : char) :
  digit_or_dot c = false -> no_dd_last (x ++ [c]).
Proof. unfold no_dd_last. rewrite rev_app_distr. cbn [rev app]. auto. Qed.

Lemma tail_ok_step (pre : list char) (st st' : state) (c : char) :
  tail_ok pre st -> step st c = Ok st' -> tail_ok (pre ++ [c]) st'.
Proof.
  intros (x & -> & Hx) Hs.
  destruct (step_shape st st' c Hs) as [(_ & _ & _ & Ht)|(Hc & Ht & _)].
  - exists x. rewrite Ht, <- app_assoc. auto.
  - exists ((x ++ temp st) ++ [c]). rewrite Ht, app_nil_r. split; [reflexivity|].
    apply no_dd_last_snoc, Hc.
Qed.

Lemma tail_ok_scan (pre s : list char) (st st' : state) :
  tail_ok pre st -> scan st s = Ok st' -> tail_ok (pre ++ s) st'.
Proof.
  revert pre st. induction s as [|c s IH]; intros pre st Ht; cbn [scan].
  - intros H. injection H as <-. rewrite app_nil_r. exact Ht.
  - destruct (step st c) as [st1| |] eqn:E; cbn [bind]; try discriminate.
    intros H. replace (pre ++ c :: s) with ((pre ++ [c]) ++ s) by (rewrite <- app_assoc; reflexivity).
    apply (IH _ st1); [apply (tail_ok_step _ st); assumption|exact H].
Qed.

Lemma tail_ok_init (s : list char) (st : state) : scan init s = Ok st -> tail_ok s st.
Proof.
  intros H. apply (tail_ok_scan [] s init st); [|exact H].
  exists []. split; [reflexivity|exact I].
Qed.

(** On what [temp] can hold, [parse_f64] fails only on the lone ["."]. *)
Lemma parse_fail_dot (t : list char) :
  Infix.digits_dots false t = true -> t <> [] -> parse_f64 t = None -> t = [chr "."%char].
Proof.
  intros Hdd Hne Hp.
  destruct (Infix.numeral t) eqn:Hn.
  { destruct (numeral_parse t Hn) as [v Hv]. rewrite Hv in Hp. discriminate Hp. }
  unfold Infix.numeral in Hn. rewrite Hdd in Hn. cbn [andb] in Hn.
  destruct t as [|d [|d' t]]; [contradiction|..|discriminate Hn].
  cbn [Infix.digits_dots] in Hdd. rewrite Hn in Hdd.
  destruct (d =? chr "."%char) eqn:Hd; [apply N.eqb_eq in Hd as ->; reflexivity|discriminate].
Qed.

Lemma digits_dots_has_dot (t : list char) :
  Infix.digits_dots false t = true -> existsb (N.eqb (chr "."%char)) t = true ->
  exists d0 d, t = d0 ++ chr "."%char :: d /\ Forall (fun x => is_digit10 x = true) d.
Proof.
  intros Hdd Hex.
  destruct (digits_dots_split false t Hdd) as [[_ Hall]|(ip & fp & _ & -> & _ & Hfp)].
  - exfalso. apply existsb_exists in Hex as (x & Hin & Hx). apply N.eqb_eq in Hx as <-.
    rewrite Forall_forall in Hall. specialize (Hall _ Hin). vm_compute in Hall. discriminate Hall.
  - exists ip, fp. auto.
Qed.

(** ** Open parentheses on the holding stack *)

Lemma count_open_app (a b : list Token.t) : count_open (a ++ b) = (count_open a + count_open b)%nat.
Proof. unfold count_open. rewrite filter_app, length_app. reflexivity. Qed.

Lemma count_open_none (p : list Token.t) : ~ In Token.OpenParen p -> count_open p = 0%nat.
Proof.
  induction p as [|t p IH]; intros Hn; [reflexivity|].
  destruct t as [v|op|]; [apply IH..|exfalso; apply Hn; left; reflexivity];
    intros Hin; apply Hn; right; exact Hin.
Qed.

Lemma pop_ops_no_open (op : Operator.t) (h o : list Token.t) :
  exists p h', pop_ops op h o = (h', o ++ p) /\ h = p ++ h' /\ count_open p = 0%nat.
Proof.
  destruct (pop_ops_spec op h o) as (p & h' & E & Eh & Hp & _).
  exists p, h'. split; [exact E|]. split; [exact Eh|].
  clear E Eh. induction Hp as [|t p [q ->] _ IH]; [reflexivity|exact IH].
Qed.

Lemma flush_holding_eq (st st1 : state) : flush st = Ok st1 -> holding st1 = holding st.
Proof. intros H. exact (proj1 (flush_holding st st1 H)). Qed.

Lemma count_char_app (c : char) (a b : list char) :
  count_char c (a ++ b) = (count_char c a + count_char c b)%nat.
Proof. unfold count_char. apply count_occ_app. Qed.

Ltac paren_count :=
  unfold count_open; cbn [holding filter List.length];
  repeat match goal with
  | |- context [N.eq_dec ?a ?b] =>
      let E := fresh "E" in
      destruct (N.eq_dec a b) as [E|E];
      [try (vm_compute in E; discriminate E)|try (exfalso; apply E; reflexivity)]
  end; lia.

(** Each ['('] pushes one [OpenParen], each [')'] that succeeds removes
    one, and nothing else adds or removes one. *)
Lemma step_count_open (st st' : state) (c : char) :
  step st c = Ok st' ->
  (count_open (holding st') + count_char (chr ")"%char) [c] =
   count_open (holding st) + count_char (chr "("%char) [c])%nat.
Proof.
  unfold count_char. cbn [count_occ].
  unfold step. destruct (is_digit10 c) eqn:Hd.
  { intros H. injection H as <-. cbn [holding].
    assert (c <> chr ")"%char) by (intros ->; discriminate Hd).
    assert (c <> chr "("%char) by (intros ->; discriminate Hd).
    destruct (N.eq_dec c _); [contradiction|]. destruct (N.eq_dec c _); [contradiction|]. lia. }
  destruct (c =? chr "."%char) eqn:Hdot.
  { destruct (existsb _ _); [discriminate|]. intros H. injection H as <-. cbn [holding].
    apply N.eqb_eq in Hdot as ->. paren_count. }
  destruct (flush st) as [st1| |] eqn:Hf; cbn [bind]; try discriminate.
  rewrite <- (flush_holding_eq st st1 Hf).
  destruct (c =? chr "("%char) eqn:Ho.
  { intros H. injection H as <-. apply N.eqb_eq in Ho as ->. paren_count. }
  destruct (c =? chr ")"%char) eqn:Hc.
  { destruct (pop_until_paren_spec (holding st1) (output st1)) as (p & h' & E & Eh & Hn & Hh').
    rewrite E. destruct Hh' as [->|[r ->]]; [discriminate|].
    intros H. injection H as <-. cbn [holding]. rewrite Eh, count_open_app, (count_open_none p Hn).
    apply N.eqb_eq in Hc as ->. paren_count. }
  apply N.eqb_neq in Ho, Hc.
  destruct (N.eq_dec c (chr ")"%char)); [contradiction|].
  destruct (N.eq_dec c (chr "("%char)); [contradiction|].
  destruct (negb _); [|intros H; injection H as <-; lia].
  destruct (Operator.by_char c) as [op0|]; [|discriminate].
  destruct (pop_ops_no_open (unary_adjust (last_token st1) op0) (holding st1) (output st1))
    as (p & h' & E & Eh & Hp).
  rewrite E. intros H. injection H as <-. cbn [holding]. rewrite Eh, count_open_app, Hp.
  unfold count_open. cbn [filter List.length]. lia.
Qed.

Lemma scan_count_open (a : list char) (st st' : state) :
  scan st a = Ok st' ->
  (count_open (holding st') + count_char (chr ")"%char) a =
   count_open (holding st) + count_char (chr "("%char) a)%nat.
Proof.
  revert st. induction a as [|c a IH]; intros st; cbn [scan].
  - intros H. injection H as <-. reflexivity.
  - destruct (step st c) as [st1| |] eqn:E; cbn [bind]; try discriminate.
    intros H. specialize (IH st1 H). pose proof (step_count_open st st1 c E) as Hc.
    change (c :: a) with ([c] ++ a). rewrite !count_char_app. lia.
Qed.

(** ** Literals reach the output queue *)

Lemma flush_output (st st1 : state) :
  flush st = Ok st1 ->
  (exists y, output st1 = output st ++ y) /\
  (temp st <> [] -> exists v, In (Token.NumericLiteral v) (output st1)).
Proof.
  unfold flush. destruct (temp st) as [|d ds].
  - intros H. injection H as <-. split; [exists []; rewrite app_nil_r; reflexivity|].
    intros Hn. contradiction.
  - destruct (parse_f64 _) as [v|]; [|discriminate]. intros H. injection H as <-.
    cbn [output]. split; [eauto|]. intros _. exists v. apply in_or_app. right. left. reflexivity.
Qed.

Lemma step_has_num (st st' : state) (c : char) :
  step st c = Ok st' -> has_num st \/ is_digit10 c = true -> has_num st'.
Proof.
  intros Hs Hn.
  destruct (step_shape st st' c Hs) as [(_ & _ & Ho & Ht)|(Hc & _ & st1 & x & Hf & Ho)].
  - left. rewrite Ht. destruct (temp st); discriminate.
  - right. destruct (flush_output st st1 Hf) as [[y Hy] Hlit]. rewrite Ho.
    destruct Hn as [[Ht|[v Hv]]|Hd].
    + destruct (Hlit Ht) as [v Hv]. exists v. apply in_or_app. left. exact Hv.
    + exists v. rewrite Hy, <- app_assoc. apply in_or_app. left. exact Hv.
    + unfold digit_or_dot in Hc. rewrite Hd in Hc. discriminate Hc.
Qed.

Lemma scan_has_num (st st' : state) (s : list char) :
  scan st s = Ok st' -> has_num st \/ (exists c, In c s /\ is_digit10 c = true) -> has_num st'.
Proof.
  revert st. induction s as [|c s IH]; intros st; cbn [scan].
  - intros H. injection H as <-. intros [H|(c & [] & _)]. exact H.
  - destruct (step st c) as [st1| |] eqn:E; cbn [bind]; try discriminate.
    intros H Hn. apply (IH st1 H).
    destruct Hn as [Hn|(c' & [<-|Hin] & Hd)].
    + left. apply (step_has_num st st1 c E). left. exact Hn.
    + left. apply (step_has_num st st1 c E). right. exact Hd.
    + destruct (is_digit10 c) eqn:Hdc.
      * left. apply (step_has_num st st1 c E). right. exact Hdc.
      * right. eauto.
Qed.

Lemma solve_loop_nonempty (out : list Token.t) (s r : list float) :
  solve_loop out s = Ok r ->
  s <> [] \/ (exists v, In (Token.NumericLiteral v) out) -> r <> [].
Proof.
  revert s. induction out as [|t out IH]; intros s; cbn [solve_loop].
  - intros H. injection H as <-. intros [H|(v & [])]. exact H.
  - destruct t as [v|op|].
    + intros H _. apply (IH _ H). left. discriminate.
    + intros H Hn.
      assert (Hn' : s <> [] \/ (exists v, In (Token.NumericLiteral v) out)).
      { destruct Hn as [Hn|(v & [Hv|Hv])]; [left; exact Hn|discriminate Hv|right; eauto]. }
      revert H. destruct (_ <? _); [discriminate|].
      destruct (_ && _); [intros H; exact (IH _ H Hn')|].
      destruct (_ && _); [destruct s; [discriminate|intros H; apply (IH _ H); left; discriminate]|].
      destruct (pop_args _ _ _) as [[args s']| |]; cbn [bind]; try discriminate.
      destruct (_ <? _); [discriminate|].
      destruct (Operator.resolve _ _); [|discriminate].
      intros H. apply (IH _ H). left. discriminate.
    + discriminate.
Qed.

(** ** Whitespace around the input *)

Lemma scan_ws_tail (st : state) (w : char) (ws : list char) :
  is_whitespace w = true -> forallb is_whitespace ws = true -> scan st (w :: ws) = flush st.
Proof.
  intros Hw Hws. pose proof (whitespace_facts w Hw) as (Hd & Hdot & _ & _).
  assert (Hsym : sym_ok w = true) by (unfold sym_ok; rewrite Hd, Hdot; reflexivity).
  cbn [scan]. rewrite (step_flush st w Hsym), bind_assoc.
  rewrite <- (bind_ok_r (flush st)) at 2. apply bind_ext. intros st1 Hf.
  pose proof (flush_temp _ _ Hf) as Ht.
  rewrite (step_ws st1 w Hw Ht). cbn [bind].
  rewrite <- (app_nil_r ws), (scan_ws st1 ws [] Hws Ht). reflexivity.
Qed.

Lemma eval_ws_pad (w1 s w2 : list char) :
  forallb is_whitespace w1 = true -> forallb is_whitespace w2 = true ->
  eval (w1 ++ s ++ w2) = eval s.
Proof.
  intros H1 H2. rewrite !eval_scan, (scan_ws init w1 _ H1 eq_refl).
  destruct w2 as [|w ws]; [rewrite app_nil_r; reflexivity|].
  cbn [forallb] in H2. apply andb_prop in H2 as [Hw Hws].
  rewrite scan_app, bind_assoc. apply bind_ext. intros st _.
  rewrite (scan_ws_tail st w ws Hw Hws), finish_flush, bind_assoc. reflexivity.
Qed.

(** ** The read-eval-print loop *)

Lemma trim_end_nl (s : list char) : trim_end (s ++ [10]) = trim_end s.
Proof. unfold trim_end. rewrite rev_app_distr. reflexivity. Qed.

Lemma main_step_nl_lemma (s : list char) :
  main_step (Some (s ++ [10])) = report (trim_end s) (eval s).
Proof.
  unfold main_step. destruct (list_eq_dec N.eq_dec (s ++ [10]) (str "end")) as [E|_].
  - exfalso. apply (f_equal (@rev N)) in E. rewrite rev_app_distr in E.
    vm_compute in E. discriminate E.
  - rewrite trim_end_nl. f_equal. apply (eval_ws_pad [] s [10]); reflexivity.
Qed.

Lemma main_step_continues (r : option (list char)) :
  r <> Some (str "end") -> main_step r <> Stop /\ main_step r <> Abort.
Proof.
  intros Hr. destruct r as [expr|]; [|split; discriminate].
  unfold main_step. destruct (list_eq_dec N.eq_dec expr (str "end")) as [->|_];
    [contradiction|].
  pose proof (eval_no_panic_lemma expr) as Hp.
  unfold report. destruct (eval expr); [split; discriminate..|contradiction].
Qed.

Lemma main_run_eof (n : nat) : main_run n [] = repeat (PrintErr NoResult) n.
Proof.
  assert (E : main_step (Some []) = PrintErr NoResult) by (vm_compute; reflexivity).
  induction n as [|n IH]; [reflexivity|]. cbn [main_run]. rewrite E, IH. reflexivity.
Qed.

Lemma main_run_reads (reads : list (option (list char))) (n : nat) :
  ~ In (Some (str "end")) reads ->
  main_run (List.length reads + n) reads = map main_step reads ++ repeat (PrintErr NoResult) n.
Proof.
  induction reads as [|r rs IH]; intros Hn; [apply main_run_eof|].
  assert (Hr : r <> Some (str "end")) by (intros ->; apply Hn; left; reflexivity).
  assert (Hrs : ~ In (Some (str "end")) rs) by (intros Hin; apply Hn; right; exact Hin).
  destruct (main_step_continues r Hr) as [Hs Ha].
  cbn [List.length Nat.add main_run map app].
  destruct (main_step r); try contradiction; rewrite IH by exact Hrs; reflexivity.
Qed.

(** ** Unclosed and unmatched parentheses *)

Lemma paren_split_first (out : list Token.t) :
  In Token.OpenParen out ->
  exists pre post, out = pre ++ Token.OpenParen :: post /\ ~ In Token.OpenParen pre.
Proof.
  induction out as [|t out IH]; intros Hin; [destruct Hin|].
  destruct t as [v|op|].
  - destruct Hin as [H|H]; [discriminate H|]. destruct (IH H) as (pre & post & -> & Hn).
    exists (Token.NumericLiteral v :: pre), post. split; [reflexivity|].
    intros [H'|H']; [discriminate H'|exact (Hn H')].
  - destruct Hin as [H|H]; [discriminate H|]. destruct (IH H) as (pre & post & -> & Hn).
    exists (Token.Operator op :: pre), post. split; [reflexivity|].
    intros [H'|H']; [discriminate H'|exact (Hn H')].
  - exists [], out. split; [reflexivity|]. intros [].
Qed.

Lemma flush_parses (st : state) :
  (temp st = [] \/ exists v, parse_f64 (temp st) = Some v) -> exists st1, flush st = Ok st1.
Proof.
  unfold flush. intros [Ht|(v & Hv)]; [rewrite Ht; eexists; reflexivity|].
  destruct (temp st); [eexists; reflexivity|]. rewrite Hv. eexists; reflexivity.
Qed.

(** C7 (amended): when the scan of the input succeeds and leaves an
    [OpenParen] on the holding stack, the drain of lines 153-157 puts it in
    the output queue, and [eval] never returns a value nor
    [MismatchedParenthesis].  It fails with [UnexpectedToken OpenParen]
    whenever the tokens queued before that parenthesis evaluate without
    error.  Otherwise an earlier operator fails first with
    [NotEnoughArguments], or the final flush fails with
    [NumberParseError]; these three are the only outcomes. *)
Theorem unclosed_paren_drained (s : list char) (st : state)
  (Hscan : scan init s = Ok st) (Hin : In Token.OpenParen (holding st)) :
  (forall out, finish st = Ok out -> In Token.OpenParen out) /\
  (forall v, eval s <> Ok v) /\
  eval s <> Err MismatchedParenthesis /\
  (forall out pre post stk, finish st = Ok out -> out = pre ++ Token.OpenParen :: post ->
     solve_loop pre [] = Ok stk -> eval s = Err (UnexpectedToken Token.OpenParen)) /\
  ((exists out pre post stk, finish st = Ok out /\ out = pre ++ Token.OpenParen :: post /\
      ~ In Token.OpenParen pre /\ solve_loop pre [] = Ok stk /\
      eval s = Err (UnexpectedToken Token.OpenParen)) \/
   (exists out pre post, finish st = Ok out /\ out = pre ++ Token.OpenParen :: post /\
      ~ In Token.OpenParen pre /\ solve_loop pre [] = Err NotEnoughArguments /\
      eval s = Err NotEnoughArguments) \/
   (finish st = Err NumberParseError /\ eval s = Err NumberParseError)).
Proof.
  assert (Hfin : forall out, finish st = Ok out -> In Token.OpenParen out).
  { intros out. unfold finish. destruct (temp st).
    - intros H. injection H as <-. apply in_or_app. right. exact Hin.
    - destruct (parse_f64 _); intros H; [|discriminate H].
      injection H as <-. apply in_or_app. right. right. exact Hin. }
  assert (Hcases :
   (exists out pre post stk, finish st = Ok out /\ out = pre ++ Token.OpenParen :: post /\
      ~ In Token.OpenParen pre /\ solve_loop pre [] = Ok stk /\
      eval s = Err (UnexpectedToken Token.OpenParen)) \/
   (exists out pre post, finish st = Ok out /\ out = pre ++ Token.OpenParen :: post /\
      ~ In Token.OpenParen pre /\ solve_loop pre [] = Err NotEnoughArguments /\
      eval s = Err NotEnoughArguments) \/
   (finish st = Err NumberParseError /\ eval s = Err NumberParseError)).
  { pose proof (scan_inv_scan init st s scan_inv_init Hscan) as Hinv.
    destruct (finish st) as [out|e|] eqn:Ef; [| |exfalso; exact (finish_no_panic st Ef)].
    - destruct (paren_split_first out (Hfin out eq_refl)) as (pre & post & Hout & Hn).
      pose proof (finish_tokens st out Hinv Ef) as Htok.
      rewrite Hout in Htok. apply Forall_app in Htok as [Hpre _].
      pose proof (solve_loop_no_panic pre [] Hpre) as Hnp.
      assert (Hev : eval s = match solve_loop pre [] with
                             | Ok _ => Err (UnexpectedToken Token.OpenParen)
                             | Err e => Err e
                             | Panic => Panic
                             end).
      { rewrite eval_scan, Hscan. cbn [bind]. rewrite Ef. cbn [bind].
        rewrite Hout, solve_loop_app. destruct (solve_loop pre []); reflexivity. }
      revert Hev Hnp. destruct (solve_loop pre []) as [stk|e|] eqn:Es; intros Hev Hnp.
      + left. exists out, pre, post, stk. exact (conj eq_refl (conj Hout (conj Hn (conj Es Hev)))).
      + destruct (solve_loop_err pre [] e Es) as [He|[_ Hp]]; [|contradiction].
        subst e. right; left. exists out, pre, post.
        exact (conj eq_refl (conj Hout (conj Hn (conj Es Hev)))).
      + contradiction.
    - destruct (finish_err st e Ef) as [-> _]. right; right. split; [reflexivity|].
      rewrite eval_scan, Hscan. cbn [bind]. rewrite Ef. reflexivity. }
  assert (Hres : exists e, eval s = Err e /\
                   (e = UnexpectedToken Token.OpenParen \/ e = NotEnoughArguments \/
                    e = NumberParseError)).
  { destruct Hcases as [(_ & _ & _ & _ & _ & _ & _ & _ & He)|
                        [(_ & _ & _ & _ & _ & _ & _ & He)|(_ & He)]];
      eexists; (split; [exact He|]); auto. }
  destruct Hres as (e & He & Hc).
  split; [exact Hfin|]. split; [|split; [|split; [|exact Hcases]]].
  - intros v Hv. rewrite Hv in He. discriminate He.
  - intros Hm. rewrite Hm in He. injection He as <-.
    destruct Hc as [H|[H|H]]; discriminate H.
  - intros out pre post stk Hf -> Hpre.
    rewrite eval_scan, Hscan. cbn [bind]. rewrite Hf. cbn [bind].
    rewrite solve_loop_app, Hpre. reflexivity.
Qed.

Lemma unclosed_paren_drained_witness :
  eval (str "(1 + 2") = Err (UnexpectedToken Token.OpenParen) /\
  eval (str "(1 +") = Err NotEnoughArguments.
Proof.
  split; [|vm_compute; reflexivity].
  refine (proj1 (proj2 (proj2 (proj2 (unclosed_paren_drained (str "(1 + 2")
     (mkState [Token.Operator Operator.Add; Token.OpenParen] [Token.NumericLiteral 1]
        (str "2") (Some (Token.Operator Operator.Add)))
     ltac:(vm_compute; reflexivity) ltac:(vm_compute; auto)))))
     _ [Token.NumericLiteral 1; Token.NumericLiteral 2; Token.Operator Operator.Add] []
     [3%float] ltac:(vm_compute; reflexivity) ltac:(vm_compute; reflexivity)
     ltac:(vm_compute; reflexivity)).
Defined.

(** C7 counterexample: in [(1 +] the parenthesis is never closed, but
    evaluation fails with [NotEnoughArguments] at the [+] before reaching
    the [OpenParen]. *)
Lemma unclosed_paren_counterexample :
  eval (str "(1 +") = Err NotEnoughArguments /\
  eval (str "(1 +") <> Err (UnexpectedToken Token.OpenParen).
Proof. split; vm_compute; [reflexivity|discriminate]. Qed.

(** C8 (amended): a [')'] scanned while the holding stack has no
    [OpenParen] makes [eval] fail with [MismatchedParenthesis], whatever
    follows, when the pending numeral, if any, parses; in particular
    [eval ")"] does.  A pending numeral that does not parse makes the flush
    before the [')'] fail first, with [NumberParseError].  When an
    [OpenParen] is on the stack, the operators above it move to the output
    queue (top first) and the [OpenParen] is discarded. *)
Theorem close_paren_unmatched (pre rest : list char) (st : state)
  (Hscan : scan init pre = Ok st) :
  ((temp st = [] \/ exists v, parse_f64 (temp st) = Some v) ->
     ~ In Token.OpenParen (holding st) ->
     eval (pre ++ chr ")"%char :: rest) = Err MismatchedParenthesis) /\
  (temp st <> [] -> parse_f64 (temp st) = None ->
     eval (pre ++ chr ")"%char :: rest) = Err NumberParseError) /\
  (forall st1 ops h', flush st = Ok st1 ->
     holding st = ops ++ Token.OpenParen :: h' -> ~ In Token.OpenParen ops ->
     step st (chr ")"%char) = Ok (mkState h' (output st1 ++ ops) [] (Some Token.OpenParen))) /\
  eval (str ")") = Err MismatchedParenthesis.
Proof.
  assert (Hstep : forall st1, flush st = Ok st1 ->
            step st (chr ")"%char) =
            let '(h, o) := pop_until_paren (holding st1) (output st1) in
            match h with
            | [] => Err MismatchedParenthesis
            | t :: h' =>
                let h'' := match t with Token.OpenParen => h' | _ => t :: h' end in
                Ok (mkState h'' o (temp st1) (Some t))
            end).
  { intros st1 Hflush. unfold step. rewrite Hflush. reflexivity. }
  split; [|split; [|split; [|vm_compute; reflexivity]]].
  - intros Hp Hn. destruct (flush_parses st Hp) as (st1 & Hflush).
    destruct (flush_holding st st1 Hflush) as [Hh _].
    rewrite eval_scan, scan_app, Hscan. cbn [bind scan].
    rewrite (Hstep st1 Hflush), Hh, pop_until_paren_none by exact Hn. reflexivity.
  - intros Ht Hp.
    assert (Hflush : flush st = Err NumberParseError).
    { unfold flush. destruct (temp st); [contradiction|]. rewrite Hp. reflexivity. }
    rewrite eval_scan, scan_app, Hscan. cbn [bind scan]. unfold step. rewrite Hflush.
    reflexivity.
  - intros st1 ops h' Hflush Hs Hn. destruct (flush_holding st st1 Hflush) as [Hh Ht].
    rewrite (Hstep st1 Hflush), Hh, Hs, pop_until_paren_found by exact Hn.
    rewrite Ht. reflexivity.
Qed.

Lemma close_paren_unmatched_witness :
  eval (str "1 + 2)") = Err MismatchedParenthesis /\
  eval (str ".)") = Err NumberParseError /\
  step (mkState [Token.Operator Operator.Multiply; Token.OpenParen] [Token.NumericLiteral 3]
          (str "4") (Some (Token.Operator Operator.Multiply))) (chr ")"%char)
    = Ok (mkState [] [Token.NumericLiteral 3; Token.NumericLiteral 4;
                      Token.Operator Operator.Multiply] [] (Some Token.OpenParen)).
Proof.
  split; [|split].
  - refine (proj1 (close_paren_unmatched (str "1 + 2") []
             (mkState [Token.Operator Operator.Add] [Token.NumericLiteral 1]
                (str "2") (Some (Token.Operator Operator.Add)))
             ltac:(vm_compute; reflexivity))
             ltac:(right; eexists; vm_compute; reflexivity)
             ltac:(vm_compute; intros [H|[]]; discriminate H)).
  - refine (proj1 (proj2 (close_paren_unmatched (str ".") []
             (mkState [] [] (str ".") None) ltac:(vm_compute; reflexivity)))
             ltac:(vm_compute; discriminate) ltac:(vm_compute; reflexivity)).
  - refine (proj1 (proj2 (proj2 (close_paren_unmatched (str "(3 * 4") []
             (mkState [Token.Operator Operator.Multiply; Token.OpenParen] [Token.NumericLiteral 3]
                (str "4") (Some (Token.Operator Operator.Multiply)))
             ltac:(vm_compute; reflexivity))))
             (mkState [Token.Operator Operator.Multiply; Token.OpenParen]
                [Token.NumericLiteral 3; Token.NumericLiteral 4] [] (Some (Token.NumericLiteral 4)))
             [Token.Operator Operator.Multiply] [] ltac:(vm_compute; reflexivity) eq_refl
             ltac:(vm_compute; intros [H|[]]; discriminate H)).
Defined.

(** C8 counterexample: in [.)] the [')'] is scanned with no [OpenParen]
    on the holding stack, but the flush of the lone ["."] fails first, with
    [NumberParseError]. *)
Lemma close_paren_counterexample :
  eval (str ".)") = Err NumberParseError /\
  eval (str ".)") <> Err MismatchedParenthesis.
Proof. split; vm_compute; [reflexivity|discriminate]. Qed.

(** ** Further properties of [eval] and [main] *)

(** [eval] never panics: every [unwrap] of the source is guarded, so each
    input gives a value or an [EvalError]. *)
Theorem eval_never_panics (s : list char) :
  (exists v, eval s = Ok v) \/ (exists e, eval s = Err e).
Proof.
  pose proof (eval_no_panic_lemma s) as H.
  destruct (eval s) as [v|e|]; [left; eauto|right; eauto|contradiction].
Qed.

(** After a successful scan, the holding stack holds only open
    parentheses and operators (the three [by_char] finds and the unary [+]
    and [-]), never a numeric literal. *)
Theorem scan_holding_tokens (s : list char) (st : state)
  (Hscan : scan init s = Ok st) :
  Forall hold_tok_ok (holding st).
Proof. exact (proj1 (scan_inv_scan init st s scan_inv_init Hscan)). Qed.

Lemma scan_holding_tokens_witness :
  Forall hold_tok_ok [Token.Operator (unary_op Operator.Subtract);
                      Token.Operator Operator.Multiply; Token.OpenParen].
Proof.
  exact (scan_holding_tokens (str "(2 * -")
           (mkState [Token.Operator (unary_op Operator.Subtract);
                     Token.Operator Operator.Multiply; Token.OpenParen] [Token.NumericLiteral 2] []
              (Some (Token.Operator (unary_op Operator.Subtract))))
           ltac:(vm_compute; reflexivity)).
Defined.

(** After a successful scan, each operator on the holding stack has a
    strictly higher precedence than an operator right below it. *)
Theorem scan_holding_prec (s : list char) (st : state)
  (Hscan : scan init s = Ok st) :
  prec_chain (holding st).
Proof. exact (proj1 (proj2 (proj2 (scan_inv_scan init st s scan_inv_init Hscan)))). Qed.

Lemma scan_holding_prec_witness :
  prec_chain [Token.Operator Operator.Multiply; Token.Operator Operator.Add;
              Token.Operator Operator.Subtract].
Proof.
  exact (scan_holding_prec (str "1 - 2 + 3 *")
           (mkState [Token.Operator Operator.Multiply; Token.Operator Operator.Add;
                     Token.Operator Operator.Subtract]
              [Token.NumericLiteral 1; Token.NumericLiteral 2; Token.NumericLiteral 3] []
              (Some (Token.Operator Operator.Multiply)))
           ltac:(vm_compute; reflexivity)).
Defined.

(** After a successful scan, the pending numeral [temp] is the whole run
    of digits and dots that ends the input, and it has at most one dot. *)
Theorem scan_temp_run (s : list char) (st : state)
  (Hscan : scan init s = Ok st) :
  exists x, s = x ++ temp st /\ no_dd_last x /\ Infix.digits_dots false (temp st) = true.
Proof.
  destruct (tail_ok_init s st Hscan) as (x & Hx & Hl).
  exists x. split; [exact Hx|]. split; [exact Hl|].
  exact (proj2 (proj2 (proj2 (scan_inv_scan init st s scan_inv_init Hscan)))).
Qed.

Lemma scan_temp_run_witness :
  exists x, str "1 + 23.4" = x ++ str "23.4" /\ no_dd_last x /\
            Infix.digits_dots false (str "23.4") = true.
Proof.
  exact (scan_temp_run (str "1 + 23.4")
           (mkState [Token.Operator Operator.Add] [Token.NumericLiteral 1] (str "23.4")
              (Some (Token.Operator Operator.Add)))
           ltac:(vm_compute; reflexivity)).
Defined.

(** After a successful scan, the holding stack keeps one [OpenParen] for
    each ['('] not yet closed: their number is the count of ['('] minus the
    count of [')'] in the input. *)
Theorem scan_open_parens (s : list char) (st : state)
  (Hscan : scan init s = Ok st) :
  (count_open (holding st) + count_char (chr ")"%char) s = count_char (chr "("%char) s)%nat.
Proof. exact (scan_count_open s init st Hscan). Qed.

Lemma scan_open_parens_witness :
  (count_open [Token.OpenParen] + count_char (chr ")"%char) (str "((1))(")
   = count_char (chr "("%char) (str "((1))("))%nat.
Proof.
  exact (scan_open_parens (str "((1))(")
           (mkState [Token.OpenParen] [Token.NumericLiteral 1] [] (Some Token.OpenParen))
           ltac:(vm_compute; reflexivity)).
Defined.

(** [UnexpectedToken] is only ever raised for an [OpenParen], and only when
    the scan succeeded and left an unclosed ['('] on the holding stack: the
    input has more ['('] than [')']. *)
Theorem unexpected_token_origin (s : list char) (t : Token.t)
  (Herr : eval s = Err (UnexpectedToken t)) :
  t = Token.OpenParen /\
  exists st, scan init s = Ok st /\ In Token.OpenParen (holding st) /\
             (count_char (chr ")"%char) s < count_char (chr "("%char) s)%nat.
Proof.
  destruct (eval_err_cases s _ Herr) as
    [(a & c & b & st' & _ & _ & Hs)|[(st & _ & Hf)|[(st & out & Hscan & Hf & Hl)|[He _]]]].
  - destruct (step_err st' c _ Hs) as [[He _]|[[He _]|[[He _]|[He _]]]]; discriminate He.
  - destruct (finish_err st _ Hf) as [He _]. discriminate He.
  - destruct (solve_loop_err out [] _ Hl) as [He|[He Hin]]; [discriminate He|].
    injection He as ->. split; [reflexivity|]. exists st.
    pose proof (scan_inv_scan init st s scan_inv_init Hscan) as (_ & Ho & _ & _).
    assert (Hh : In Token.OpenParen (holding st)).
    { destruct (finish_cases st out Hf) as [[_ ->]|(v & _ & _ & ->)];
        apply in_app_or in Hin as [Hin|Hin]; try exact Hin;
        try (rewrite Forall_forall in Ho; exact (False_ind _ (Ho _ Hin)));
        destruct Hin as [Hin|Hin]; [discriminate Hin|exact Hin]. }
    split; [exact Hscan|]. split; [exact Hh|].
    pose proof (scan_count_open s init st Hscan) as Hc.
    change (count_open (holding init)) with 0%nat in Hc.
    assert (Hpos : (0 < count_open (holding st))%nat).
    { clear -Hh. induction (holding st) as [|t h IH]; [destruct Hh|].
      destruct Hh as [->|Hh]; unfold count_open; cbn [filter].
      - cbn [List.length]. lia.
      - specialize (IH Hh). unfold count_open in IH. destruct t; cbn [List.length]; lia. }
    lia.
  - discriminate He.
Qed.

Lemma unexpected_token_origin_witness :
  Token.OpenParen = Token.OpenParen /\
  exists st, scan init (str "(1 + 2") = Ok st /\ In Token.OpenParen (holding st) /\
             (count_char (chr ")"%char) (str "(1 + 2") < count_char (chr "("%char) (str "(1 + 2"))%nat.
Proof.
  exact (unexpected_token_origin (str "(1 + 2") Token.OpenParen ltac:(vm_compute; reflexivity)).
Defined.

(** Whitespace before and after the input does not change what [eval]
    returns; in particular the line feed [read_line] keeps is harmless. *)
Theorem eval_whitespace_padding (w1 s w2 : list char)
  (H1 : forallb is_whitespace w1 = true) (H2 : forallb is_whitespace w2 = true) :
  eval (w1 ++ s ++ w2) = eval s.
Proof. exact (eval_ws_pad w1 s w2 H1 H2). Qed.

Lemma eval_whitespace_padding_witness :
  eval (str "  " ++ str "(1 + 2) * 3" ++ [9; 13; 10]) = eval (str "(1 + 2) * 3").
Proof.
  exact (eval_whitespace_padding (str "  ") (str "(1 + 2) * 3") [9; 13; 10]
           ltac:(vm_compute; reflexivity) ltac:(vm_compute; reflexivity)).
Defined.

(** [NoResult] is only returned for an input without any digit. *)
Theorem no_result_no_digit (s : list char) (Herr : eval s = Err NoResult) :
  Forall (fun c => is_digit10 c = false) s.
Proof.
  destruct (eval_err_cases s _ Herr) as
    [(a & c & b & st' & _ & _ & Hs)|[(st & _ & Hf)|[(st & out & _ & _ & Hl)|[_ (st & out & Hscan & Hf & Hl)]]]].
  - destruct (step_err st' c _ Hs) as [[He _]|[[He _]|[[He _]|[He _]]]]; discriminate He.
  - destruct (finish_err st _ Hf) as [He _]. discriminate He.
  - destruct (solve_loop_err out [] _ Hl) as [He|[He _]]; discriminate He.
  - apply Forall_forall. intros c Hin. destruct (is_digit10 c) eqn:Hd; [|reflexivity].
    exfalso.
    assert (Hnum : has_num st) by (apply (scan_has_num init st s Hscan); right; eauto).
    apply (solve_loop_nonempty out [] [] Hl); [|reflexivity]. right.
    destruct (finish_cases st out Hf) as [[Ht ->]|(v & _ & _ & ->)].
    + destruct Hnum as [Hn|[v Hv]]; [contradiction|].
      exists v. apply in_or_app. left. exact Hv.
    + exists v. apply in_or_app. right. left. reflexivity.
Qed.

Lemma no_result_no_digit_witness :
  Forall (fun c => is_digit10 c = false) (str " ( ) ").
Proof. exact (no_result_no_digit (str " ( ) ") ltac:(vm_compute; reflexivity)). Defined.

(** [InvalidCharacter] is only returned when the input holds a char that
    is not a digit, not one of [. ( ) * + -] and not whitespace. *)
Theorem invalid_character_origin (s : list char) (Herr : eval s = Err InvalidCharacter) :
  exists c, In c s /\ is_digit10 c = false /\ ~ In c (str ".()*+-") /\ is_whitespace c = false.
Proof.
  destruct (eval_err_cases s _ Herr) as
    [(a & c & b & st' & -> & _ & Hs)|[(st & _ & Hf)|[(st & out & _ & _ & Hl)|[He _]]]].
  - destruct (step_err st' c _ Hs) as
      [[He _]|[[He _]|[[He _]|(_ & Hdd & Ho & Hc & Hw & Hb)]]]; try discriminate He.
    exists c. split; [apply in_or_app; right; left; reflexivity|].
    unfold digit_or_dot in Hdd. apply orb_false_iff in Hdd as [Hd Hdot].
    split; [exact Hd|]. split; [|exact Hw].
    rewrite (proj1 (by_char_table c)) in Hb. unfold by_char_expected in Hb.
    apply N.eqb_neq in Hdot.
    intros [E|[E|[E|[E|[E|[E|[]]]]]]]; subst c;
      first [ apply Hdot; reflexivity | apply Ho; reflexivity | apply Hc; reflexivity
            | vm_compute in Hb; discriminate Hb ].
  - destruct (finish_err st _ Hf) as [He _]. discriminate He.
  - destruct (solve_loop_err out [] _ Hl) as [He|[He _]]; discriminate He.
  - discriminate He.
Qed.

Lemma invalid_character_origin_witness :
  exists c, In c (str "1 / 0") /\ is_digit10 c = false /\ ~ In c (str ".()*+-") /\
            is_whitespace c = false.
Proof. exact (invalid_character_origin (str "1 / 0") ltac:(vm_compute; reflexivity)). Defined.

(** [MismatchedParenthesis] is raised at the first [')'] that closes no
    ['(']: the input before it has as many ['('] as [')']. *)
Theorem mismatched_paren_origin (s : list char) (Herr : eval s = Err MismatchedParenthesis) :
  exists a b, s = a ++ chr ")"%char :: b /\
              count_char (chr "("%char) a = count_char (chr ")"%char) a.
Proof.
  destruct (eval_err_cases s _ Herr) as
    [(a & c & b & st' & -> & Ha & Hs)|[(st & _ & Hf)|[(st & out & _ & _ & Hl)|[He _]]]].
  - destruct (step_err st' c _ Hs) as
      [[He _]|[[He _]|[(_ & -> & Hn)|[He _]]]]; try discriminate He.
    exists a, b. split; [reflexivity|].
    pose proof (scan_count_open a init st' Ha) as Hc.
    rewrite (count_open_none _ Hn) in Hc. change (count_open (holding init)) with 0%nat in Hc. lia.
  - destruct (finish_err st _ Hf) as [He _]. discriminate He.
  - destruct (solve_loop_err out [] _ Hl) as [He|[He _]]; discriminate He.
  - discriminate He.
Qed.

Lemma mismatched_paren_origin_witness :
  exists a b, str "(1)) + (2" = a ++ chr ")"%char :: b /\
              count_char (chr "("%char) a = count_char (chr ")"%char) a.
Proof. exact (mismatched_paren_origin (str "(1)) + (2") ltac:(vm_compute; reflexivity)). Defined.

(** [DuplicateDecimal] is only returned when the input holds two dots with
    nothing but digits between them. *)
Theorem duplicate_decimal_origin (s : list char) (Herr : eval s = Err DuplicateDecimal) :
  exists a d b, s = a ++ chr "."%char :: d ++ chr "."%char :: b /\
                Forall (fun x => is_digit10 x = true) d.
Proof.
  destruct (eval_err_cases s _ Herr) as
    [(a & c & b & st' & -> & Ha & Hs)|[(st & _ & Hf)|[(st & out & _ & _ & Hl)|[He _]]]].
  - destruct (step_err st' c _ Hs) as
      [(_ & -> & Hex)|[[He _]|[[He _]|[He _]]]]; try discriminate He.
    pose proof (scan_inv_scan init st' a scan_inv_init Ha) as (_ & _ & _ & Hdd).
    destruct (digits_dots_has_dot _ Hdd Hex) as (d0 & d & Ht & Hd).
    destruct (tail_ok_init a st' Ha) as (x & Hx & _).
    exists (x ++ d0), d, b. split; [|exact Hd].
    rewrite Hx, Ht, <- !app_assoc. reflexivity.
  - destruct (finish_err st _ Hf) as [He _]. discriminate He.
  - destruct (solve_loop_err out [] _ Hl) as [He|[He _]]; discriminate He.
  - discriminate He.
Qed.

Lemma duplicate_decimal_origin_witness :
  exists a d b, str "1 + 2.50.1" = a ++ chr "."%char :: d ++ chr "."%char :: b /\
                Forall (fun x => is_digit10 x = true) d.
Proof. exact (duplicate_decimal_origin (str "1 + 2.50.1") ltac:(vm_compute; reflexivity)). Defined.

(** [NumberParseError] is only returned when the input holds a dot with
    neither a digit nor a dot right before it or right after it. *)
Theorem number_parse_error_origin (s : list char) (Herr : eval s = Err NumberParseError) :
  exists x y, s = x ++ chr "."%char :: y /\ no_dd_last x /\ no_dd_first y.
Proof.
  destruct (eval_err_cases s _ Herr) as
    [(a & c & b & st' & -> & Ha & Hs)|[(st & Hscan & Hf)|[(st & out & _ & _ & Hl)|[He _]]]].
  - destruct (step_err st' c _ Hs) as
      [[He _]|[(_ & Hc & Hne & Hp)|[[He _]|[He _]]]]; try discriminate He.
    pose proof (scan_inv_scan init st' a scan_inv_init Ha) as (_ & _ & _ & Hdd).
    pose proof (parse_fail_dot _ Hdd Hne Hp) as Ht.
    destruct (tail_ok_init a st' Ha) as (x & Hx & Hl).
    exists x, (c :: b). rewrite Hx, Ht, <- app_assoc. auto.
  - destruct (finish_err st _ Hf) as (_ & Hne & Hp).
    pose proof (scan_inv_scan init st s scan_inv_init Hscan) as (_ & _ & _ & Hdd).
    pose proof (parse_fail_dot _ Hdd Hne Hp) as Ht.
    destruct (tail_ok_init s st Hscan) as (x & Hx & Hl).
    exists x, []. rewrite Hx, Ht. split; [reflexivity|split; [exact Hl|exact I]].
  - destruct (solve_loop_err out [] _ Hl) as [He|[He _]]; discriminate He.
  - discriminate He.
Qed.

Lemma number_parse_error_origin_witness :
  exists x y, str "3 . 5" = x ++ chr "."%char :: y /\ no_dd_last x /\ no_dd_first y.
Proof. exact (number_parse_error_origin (str "3 . 5") ltac:(vm_compute; reflexivity)). Defined.

(** A line read with its line feed is evaluated as if the line feed were
    absent, and reported with its trailing whitespace trimmed; so
    [end] typed with Enter is evaluated (and rejected), not a quit. *)
Theorem main_step_line (s : list char) :
  main_step (Some (s ++ [10])) = report (trim_end s) (eval s) /\
  main_step (Some (str "end" ++ [10])) = PrintErr InvalidCharacter.
Proof.
  split; [apply main_step_nl_lemma|].
  rewrite main_step_nl_lemma. vm_compute. reflexivity.
Qed.

(** Unless [read_line] returns exactly [end] (no line feed), the loop
    never stops: it handles every line read, then, at the end of the
    input, reports [NoResult] on every iteration. *)
Theorem main_run_never_stops (reads : list (option (list char))) (n : nat)
  (Hreads : ~ In (Some (str "end")) reads) :
  main_run (List.length reads + n) reads = map main_step reads ++ repeat (PrintErr NoResult) n.
Proof. exact (main_run_reads reads n Hreads). Qed.

Lemma main_run_never_stops_witness :
  main_run 5 [Some (str "1 + 2" ++ [10]); None; Some (str "end" ++ [10])] =
  [PrintOk (str "1 + 2") 3%float; PrintInputError; PrintErr InvalidCharacter;
   PrintErr NoResult; PrintErr NoResult].
Proof.
  refine (eq_trans (main_run_never_stops [Some (str "1 + 2" ++ [10]); None; Some (str "end" ++ [10])] 2
                      ltac:(vm_compute; intros [H|[H|[H|[]]]]; discriminate H)) _).
  vm_compute. reflexivity.
Defined.
